(** * Beach-dune formatter: landmark detection, volumes and filtering

    A shallow embedding of [beach_dune_formatter.py].  The pandas and numpy
    primitives the program calls ([shift], [rolling], [expanding], [idxmax],
    label slicing, [trapz], [groupby], [dropna]) are given their positional
    meaning on lists; the program's own functions are then transcribed line
    by line on top of them.

    Numbers.  A float is [NaN], an infinity or a rational: comparisons,
    minima and maxima are exact on floats, and the special values are kept
    because the program relies on them (a window that runs off the end of a
    Series is [NaN], and every comparison with [NaN] is false).  Rounding is
    not modelled: finite arithmetic is rational arithmetic.

    Profiles.  The samples of a profile are finite and, as the program
    expects, ordered by strictly increasing distance [x]; the label slices
    [.loc[a:b]] are modelled for such an index. *)

From Stdlib Require Import QArith Qminmax Lqa Lia ZArith Sorted.
From stdpp Require Import base option list.

Open Scope Q_scope.

(** ** Floats *)

Inductive float : Type :=
| NaN
| NegInf
| PosInf
| Fin (q : Q).

Definition Qltb (a b : Q) : bool := negb (Qle_bool b a).

(** [a < b], [a <= b] and their mirror images; false as soon as one side is
    [NaN]. *)
Definition flt (a b : float) : bool :=
  match a, b with
  | NaN, _ | _, NaN => false
  | _, NegInf => false
  | NegInf, _ => true
  | PosInf, _ => false
  | Fin _, PosInf => true
  | Fin p, Fin q => Qltb p q
  end.

Definition fle (a b : float) : bool :=
  match a, b with
  | NaN, _ | _, NaN => false
  | NegInf, _ => true
  | _, PosInf => true
  | _, NegInf => false
  | PosInf, _ => false
  | Fin p, Fin q => Qle_bool p q
  end.

Definition fgt (a b : float) : bool := flt b a.
Definition fge (a b : float) : bool := fle b a.

Definition fsub (a b : float) : float :=
  match a, b with
  | NaN, _ | _, NaN => NaN
  | Fin p, Fin q => Fin (p - q)
  | PosInf, PosInf | NegInf, NegInf => NaN
  | PosInf, _ => PosInf
  | NegInf, _ => NegInf
  | Fin _, PosInf => NegInf
  | Fin _, NegInf => PosInf
  end.

(** Division; a zero divisor is the positive zero (the program only divides
    by differences [x - x.shift(1)], which are [+0.0] when they vanish). *)
Definition fdiv (a b : float) : float :=
  match a, b with
  | NaN, _ | _, NaN => NaN
  | Fin p, Fin q =>
      if Qeq_bool q 0
      then (if Qeq_bool p 0 then NaN else if Qltb 0 p then PosInf else NegInf)
      else Fin (p / q)
  | Fin _, _ => Fin 0
  | PosInf, Fin q => if Qltb q 0 then NegInf else PosInf
  | NegInf, Fin q => if Qltb q 0 then PosInf else NegInf
  | _, _ => NaN
  end.

(** Minimum and maximum as a rolling window takes them: [NaN] as soon as an
    operand is [NaN]. *)
Definition fmin (a b : float) : float :=
  match a, b with
  | NaN, _ | _, NaN => NaN
  | _, _ => if flt b a then b else a
  end.

Definition fmax (a b : float) : float :=
  match a, b with
  | NaN, _ | _, NaN => NaN
  | _, _ => if flt a b then b else a
  end.

(** Maximum as an expanding window with [min_periods=1] takes it: [NaN]
    operands are skipped. *)
Definition fmax_skipna (a b : float) : float :=
  match a, b with
  | NaN, c | c, NaN => c
  | _, _ => if flt a b then b else a
  end.

Definition is_nan (a : float) : bool :=
  match a with NaN => true | _ => false end.

(** ** Outcomes of a Python call *)

Inductive exn : Type := ValueError | KeyError | TypeError | IndexError.

Inductive outcome (A : Type) : Type :=
| Returned (a : A)
| Raised (e : exn).
Arguments Returned {A} a.
Arguments Raised {A} e.

#[global] Instance outcome_ret : MRet outcome := fun A a => Returned a.
#[global] Instance outcome_bind : MBind outcome := fun A B k m =>
  match m with
  | Returned a => k a
  | Raised e => Raised e
  end.

(** ** Series

    A float Series is the list of its values; its index (the [x] column,
    after [set_index("x", drop=False)]) is carried next to it. *)

Abbreviation Series := (list float) (only parsing).

(** The value at an integer position, [NaN] outside the Series. *)
Definition cell_at (s : Series) (i : Z) : float :=
  if (i <? 0)%Z then NaN else default NaN (s !! Z.to_nat i).

(** [s.shift(k)]: position [i] receives the value of position [i - k]. *)
Definition shift (k : Z) (s : Series) : Series :=
  imap (fun i _ => cell_at s (Z.of_nat i - k)) s.

(** The [w] values ending at position [i], that position included. *)
Definition window (w i : nat) (s : Series) : Series :=
  take w (drop (S i - w) s).

Definition reduce (op : float -> float -> float) (l : Series) : float :=
  match l with
  | [] => NaN
  | c :: l' => foldl op c l'
  end.

(** [s.rolling(w).min()] and [.max()], with the default [min_periods = w]. *)
Definition rolling (op : float -> float -> float) (w : nat) (s : Series) : Series :=
  imap (fun i _ => if decide (w <= S i)%nat then reduce op (window w i s) else NaN) s.

Definition rolling_min : nat -> Series -> Series := rolling fmin.
Definition rolling_max : nat -> Series -> Series := rolling fmax.

(** [s.expanding(min_periods=1).max()]. *)
Definition expanding_max (s : Series) : Series :=
  imap (fun i _ => foldl fmax_skipna NaN (take (S i) s)) s.

Definition ssub : Series -> Series -> Series := zip_with fsub.
Definition sdiv : Series -> Series -> Series := zip_with fdiv.
Definition sgt : Series -> Series -> list bool := zip_with fgt.
Definition sgt_scalar (s : Series) (c : Q) : list bool := map (fun v => fgt v (Fin c)) s.
Definition sge_scalar (s : Series) (c : Q) : list bool := map (fun v => fge v (Fin c)) s.
Definition sand : list bool -> list bool -> list bool := zip_with andb.
Definition snot : list bool -> list bool := map negb.

(** Position of the first [true], 0 when there is none (the first maximum
    of a Boolean Series). *)
Fixpoint first_true (b : list bool) : nat :=
  match b with
  | [] => 0
  | true :: _ => 0
  | false :: b' => if existsb id b' then S (first_true b') else 0
  end.

(** [b.idxmax()]: the label of the first maximum. *)
Definition idxmax (index : list Q) (b : list bool) : outcome Q :=
  match index !! first_true b with
  | Some l => Returned l
  | None => Raised ValueError
  end.

(** Position of the first minimum of a non-empty list. *)
Fixpoint argmin_from (best : nat) (vbest : Q) (i : nat) (l : list Q) : nat :=
  match l with
  | [] => best
  | v :: l' => if Qltb v vbest then argmin_from i v (S i) l' else argmin_from best vbest (S i) l'
  end.

Definition argmin (l : list Q) : option nat :=
  match l with
  | [] => None
  | v :: l' => Some (argmin_from 0 v 1 l')
  end.

(** [s.idxmin()]: the label of the first minimum. *)
Definition idxmin (index : list Q) (s : list Q) : outcome Q :=
  match argmin s ≫= (index !!.) with
  | Some l => Returned l
  | None => Raised ValueError
  end.

(** [s[label]] when the result is used as a scalar: the label must select
    exactly one row. *)
Definition getitem {A} (index : list Q) (s : list A) (label : Q) : outcome A :=
  match List.filter (fun r => Qeq_bool (fst r) label) (zip index s) with
  | [] => Raised KeyError
  | [r] => Returned (snd r)
  | _ => Raised ValueError
  end.

(** ** Profiles *)

Record Sample : Type := mkSample { x : Q; y : Q }.

Abbreviation Profile := (list Sample) (only parsing).

Definition index (p : Profile) : list Q := map x p.
Definition xcol (p : Profile) : Series := map (fun s => Fin (x s)) p.
Definition ycol (p : Profile) : Series := map (fun s => Fin (y s)) p.
Definition yvals (p : Profile) : list Q := map y p.

(** [p.loc[a:]] and [p.loc[a:b]] on an increasing index: the samples whose
    label lies in the closed range. *)
Definition loc_from (a : Q) (p : Profile) : Profile :=
  List.filter (fun s => Qle_bool a (x s)) p.

Definition loc_range (a b : Q) (p : Profile) : Profile :=
  List.filter (fun s => Qle_bool a (x s) && Qle_bool (x s) b) p.

(** ** The four searches *)

Definition identify_shore (profile_xy : Profile) : outcome (option Q) :=
  let x := xcol profile_xy in
  let y := ycol profile_xy in
  let slope := sdiv (ssub y (shift 1 y)) (ssub x (shift 1 x)) in
  let filtered :=
    sand (sand (sgt_scalar y 0)
               (sgt y (expanding_max (shift 1 y))))
         (sge_scalar (shift (-4) (rolling_min 5 slope)) 0) in
  x_coord ← idxmax (index profile_xy) filtered;
  found ← getitem (index profile_xy) filtered x_coord;
  if (found : bool) then mret None else mret (Some x_coord).

Definition identify_crest (profile_xy : Profile) (shore_x : Q) : outcome (option Q) :=
  let subset := loc_from shore_x profile_xy in
  let y := ycol subset in
  let filtered :=
    sand (sand (sgt y (expanding_max (shift 1 y)))
               (sgt_scalar (ssub y (shift (-20) (rolling_min 20 y))) (6 # 10)))
         (sgt y (shift (-10) (rolling_max 10 y))) in
  x_coord ← idxmax (index subset) filtered;
  found ← getitem (index subset) filtered x_coord;
  if (found : bool) then mret (Some x_coord) else mret None.

(** [s[mask]]: the rows where the Boolean mask holds. *)
Definition mask_select {A} (mask : list bool) (l : list A) : list A :=
  map snd (List.filter fst (zip mask l)).

Section Toe.

(** [np.polyfit(x, y, deg=3)], the least-squares cubic of numpy, with its
    coefficients from the highest degree down.  It belongs to numpy, not
    to this program, and is a parameter of the development.  It stands for
    numpy's function on the data the chain hands to it, two samples or
    more; on a sub-range reduced to the single distance 0 numpy fails, a
    case the parameter does not cover. *)
Variable polyfit : list Q -> list Q -> Q * Q * Q * Q.

(** The residuals [y - (A x^3 + B x^2 + C x + D)] of the fitted cubic. *)
Definition differences (subset : Profile) : list Q :=
  let '(A, B, C, D) := polyfit (map x subset) (map y subset) in
  map (fun s => y s - ((A * x s * x s * x s) + (B * x s * x s) + (C * x s) + D))
      subset.

Definition identify_toe (profile_xy : Profile) (shore_x crest_x : Q)
  : outcome (option Q) :=
  let subset := loc_range shore_x crest_x profile_xy in
  match subset with
  | [] => Raised TypeError (* polyfit: expected non-empty vector for x *)
  | _ =>
      x_coord ← idxmin (index subset) (differences subset);
      if Qeq_bool x_coord shore_x || Qeq_bool x_coord crest_x
      then mret None
      else mret (Some x_coord)
  end.

End Toe.

Definition identify_heel (profile_df : Profile) (crest_x : Q) : outcome (option Q) :=
  let subset := loc_from crest_x profile_df in
  let y := ycol subset in
  let filtered :=
    snot (sand (sand (sgt_scalar (ssub y (shift (-10) (rolling_min 10 y))) (6 # 10))
                     (sgt y (rolling_max 10 y)))
               (sgt y (shift (-20) (rolling_max 20 y)))) in
  if forallb id filtered
  then mret None
  else x_coord ← idxmin (mask_select filtered (index subset))
                        (mask_select filtered (yvals subset));
       mret (Some x_coord).

(** ** The chain of searches

    [identify_features] calls the searches in the order shore, crest, toe,
    heel and gives up at the first one that finds nothing.  Which searches
    were called, and which message was printed, is recorded in a log that
    is threaded through the function. *)

Inductive landmark : Type := Shore | Crest | Toe | Heel.

Inductive event : Type :=
| Searched (l : landmark)   (* the search for [l] was called *)
| Printed (l : landmark).   (* "No <l> for <profile>" was printed *)

Definition M (A : Type) : Type := (list event * outcome A)%type.

#[global] Instance M_ret : MRet M := fun A a => ([], Returned a).
#[global] Instance M_bind : MBind M := fun A B k m =>
  match m with
  | (log, Returned a) => let '(log', r) := k a in (log ++ log', r)
  | (log, Raised e) => (log, Raised e)
  end.

Definition tell (e : event) : M unit := ([e], Returned tt).
Definition call {A} (l : landmark) (r : outcome A) : M A := ([Searched l], r).
Definition lift {A} (r : outcome A) : M A := ([], r).

Record FeatureSet : Type := mkFeatureSet {
  shore_x : Q; shore_y : Q;
  toe_x : Q; toe_y : Q;
  crest_x : Q; crest_y : Q;
  heel_x : Q; heel_y : Q
}.

(** The tuple the function returns. *)
Definition fields (f : FeatureSet) : list Q :=
  [shore_x f; shore_y f; toe_x f; toe_y f; crest_x f; crest_y f; heel_x f; heel_y f].

(** [p.loc[labels, "y"]]: the [y] of every row carrying one of the labels,
    label after label; a label that is not in the index is a [KeyError]. *)
Definition loc_labels (p : Profile) (labels : list Q) : outcome (list Q) :=
  if forallb (fun l => existsb (fun s => Qeq_bool (x s) l) p) labels
  then Returned (flat_map (fun l => yvals (List.filter (fun s => Qeq_bool (x s) l) p)) labels)
  else Raised KeyError.

Section Chain.

(** The four searches, abstracted: the control flow of the chain does not
    depend on what they compute. *)
Variable shore : Profile -> outcome (option Q).
Variable crest : Profile -> Q -> outcome (option Q).
Variable toe : Profile -> Q -> Q -> outcome (option Q).
Variable heel : Profile -> Q -> outcome (option Q).

Definition identify_features_with (profile_xy : Profile) : M (option FeatureSet) :=
  shore_x ← call Shore (shore profile_xy);
  match shore_x with
  | None => tell (Printed Shore);; mret None
  | Some shore_x =>
  crest_x ← call Crest (crest profile_xy shore_x);
  match crest_x with
  | None => tell (Printed Crest);; mret None
  | Some crest_x =>
  toe_x ← call Toe (toe profile_xy shore_x crest_x);
  match toe_x with
  | None => tell (Printed Toe);; mret None
  | Some toe_x =>
  heel_x ← call Heel (heel profile_xy crest_x);
  match heel_x with
  | None => tell (Printed Heel);; mret None
  | Some heel_x =>
  ys ← lift (loc_labels profile_xy [shore_x; toe_x; crest_x; heel_x]);
  match ys with
  | [shore_y; toe_y; crest_y; heel_y] =>
      mret (Some (mkFeatureSet shore_x shore_y toe_x toe_y
                               crest_x crest_y heel_x heel_y))
  | _ => lift (Raised ValueError) (* unpacking into four names *)
  end end end end end.

End Chain.

Definition identify_features (polyfit : list Q -> list Q -> Q * Q * Q * Q)
  : Profile -> M (option FeatureSet) :=
  identify_features_with identify_shore identify_crest (identify_toe polyfit)
                         identify_heel.

(** ** Volumes *)

(** [np.diff(l)]. *)
Definition diff (l : list Q) : list Q := zip_with Qminus (tail l) l.

Definition add_reduce (l : list Q) : Q := foldr Qplus 0 l.

(** [np.trapz(y, x)]: [add.reduce(diff(x) * (y[1:] + y[:-1]) / 2.0)]. *)
Definition trapz (ys xs : list Q) : Q :=
  add_reduce
    (zip_with (fun d s => d * s / 2) (diff xs)
              (zip_with Qplus (tail ys) (take (length ys - 1) ys))).

Definition measure_volume (profile_xy : Profile) (start_x end_x : Q)
    (profile_spacing : Q) (base_elevation : Q) : Q :=
  let subset := loc_range start_x end_x profile_xy in
  let x := index subset in
  let y := map (fun v => v - base_elevation) (yvals subset) in
  trapz y x * profile_spacing.

(** ** The dataset and the per-profile volumes *)

Record Row : Type := mkRow {
  state : Z; segment : Z; profile : Z;
  row_x : Q; row_y : Q
}.

Definition key : Type := (Z * Z * Z)%type.

Definition key_of (r : Row) : key := (state r, segment r, profile r).

Definition key_eqb (a b : key) : bool :=
  let '(a1, a2, a3) := a in
  let '(b1, b2, b3) := b in
  ((a1 =? b1) && (a2 =? b2) && (a3 =? b3))%Z.

Definition key_ltb (a b : key) : bool :=
  let '(a1, a2, a3) := a in
  let '(b1, b2, b3) := b in
  ((a1 <? b1) || ((a1 =? b1) && ((a2 <? b2) || ((a2 =? b2) && (a3 <? b3)))))%Z.

(** Sorted insertion of a key, once. *)
Fixpoint insert_key (k : key) (l : list key) : list key :=
  match l with
  | [] => [k]
  | k' :: l' =>
      if key_eqb k k' then l
      else if key_ltb k k' then k :: l
      else k' :: insert_key k l'
  end.

(** [d.groupby(["state", "segment", "profile"])]: one group per key, the
    keys in increasing order, the rows of a group in their order in [d]. *)
Definition groupby (d : list Row) : list (key * Profile) :=
  map (fun k => (k, map (fun r => mkSample (row_x r) (row_y r))
                        (List.filter (fun r => key_eqb (key_of r) k) d)))
      (foldr insert_key [] (map key_of d)).

(** Python's [zip] of four sequences, mapped. *)
Fixpoint zip_with4 {A B C D E} (f : A -> B -> C -> D -> E)
    (la : list A) (lb : list B) (lc : list C) (ld : list D) : list E :=
  match la, lb, lc, ld with
  | a :: la', b :: lb', c :: lc', d :: ld' => f a b c d :: zip_with4 f la' lb' lc' ld'
  | _, _, _, _ => []
  end.

(** [xy_data["x"].iat[1] - xy_data["x"].iat[0]], the first statement of
    [measure_feature_volumes]. *)
Definition profile_spacing (xy_data : list Row) : outcome Q :=
  match xy_data with
  | r0 :: r1 :: _ => Returned (row_x r1 - row_x r0)
  | _ => Raised IndexError (* .iat[1] or .iat[0] out of bounds *)
  end.

Definition measure_feature_volumes (xy_data : list Row)
    (start_values end_values base_elevations : list Q) : outcome (list Q) :=
  profile_spacing ← profile_spacing xy_data;
  let grouped_xy := groupby xy_data in
  mret (zip_with4
          (fun g start_x end_x base_y =>
             measure_volume (snd g) start_x end_x profile_spacing base_y)
          grouped_xy start_values end_values base_elevations).

(** ** The table of metrics and its filter *)

Record BeachData : Type := mkBeachData {
  dune_height : float; beach_width : float; dune_toe : float;
  dune_crest : float; dune_length : float; beach_slope : float;
  dune_slope : float; beach_vol : float; dune_vol : float; bd_ratio : float
}.

Definition columns (r : BeachData) : list float :=
  [dune_height r; beach_width r; dune_toe r; dune_crest r; dune_length r;
   beach_slope r; dune_slope r; beach_vol r; dune_vol r; bd_ratio r].

(** The Boolean mask of [main]. *)
Definition in_ranges (r : BeachData) : bool :=
  flt (dune_vol r) (Fin 300)
  && flt (beach_vol r) (Fin 500)
  && fgt (dune_height r) (Fin 1)
  && flt (dune_height r) (Fin 10)
  && fgt (dune_length r) (Fin 5)
  && flt (dune_length r) (Fin 25)
  && flt (dune_crest r) (Fin 20)
  && fgt (beach_width r) (Fin 10)
  && flt (beach_width r) (Fin 60).

(** [t.dropna()]: the rows without a missing value ([NaN]). *)
Definition dropna (t : list BeachData) : list BeachData :=
  List.filter (fun r => negb (existsb is_nan (columns r))) t.

(** [beach_data[mask].dropna()]. *)
Definition filtered_beach_data (beach_data : list BeachData) : list BeachData :=
  dropna (List.filter in_ranges beach_data).

(** * The specification's words

    The definitions of this part follow the sentences of the specification,
    position by position; the theorems compare them with the program. *)

(** The index of a profile is strictly increasing. *)
Fixpoint strictly_increasing (l : list Q) : bool :=
  match l with
  | a :: (b :: _) as l' => Qltb a b && strictly_increasing l'
  | _ => true
  end.

Definition minimum (l : list Q) : option Q :=
  match l with
  | [] => None
  | a :: l' => Some (foldl Qmin a l')
  end.

Definition maximum (l : list Q) : option Q :=
  match l with
  | [] => None
  | a :: l' => Some (foldl Qmax a l')
  end.

(** The [n] values after position [i], and the [n] values before it, when
    all of them exist.  A window that runs past an end of the sequence has
    no minimum or maximum, and a comparison with it is non-qualifying. *)
Definition next_values {A} (n i : nat) (l : list A) : option (list A) :=
  if decide (i + n < length l)%nat then Some (take n (drop (S i) l)) else None.

Definition previous_values {A} (n i : nat) (l : list A) : option (list A) :=
  if decide (n <= i)%nat then Some (take n (drop (i - n) l)) else None.

(** [a] exceeds the bound [b]; false when the bound does not exist. *)
Definition exceeds (a : Q) (b : option Q) : bool :=
  match b with
  | Some b => Qltb b a
  | None => false
  end.

(** [a] exceeds the bound [b] by more than [t]. *)
Definition exceeds_by (t a : Q) (b : option Q) : bool :=
  match b with
  | Some b => Qltb t (a - b)
  | None => false
  end.

(** The first position below [n] that qualifies. *)
Definition first_qualifying (q : nat -> bool) (n : nat) : option nat :=
  List.find q (seq 0 n).

(** The local slope to the previous sample. *)
Definition slope_at (p : Profile) (j : nat) : option Q :=
  match j with
  | O => None
  | S j' =>
      a ← p !! j'; b ← p !! j;
      Some ((y b - y a) / (x b - x a))
  end.

(** Shore: (a) the elevation is strictly positive, (b) it is strictly above
    the maximum of the elevations at the earlier positions, (c) the minimum
    of the 5 slopes from the current position on is non-negative. *)
Definition shore_qualifies (p : Profile) (i : nat) : bool :=
  match p !! i with
  | None => false
  | Some s =>
      Qltb 0 (y s)
      && exceeds (y s) (maximum (yvals (take i p)))
      && match mapM (slope_at p) (seq i 5) ≫= minimum with
         | Some m => Qle_bool 0 m
         | None => false
         end
  end.

(** Crest, on the elevations of the sub-sequence from the shore on: (a) a
    new running maximum (above the maximum of the earlier elevations of the
    sub-sequence), (b) more than 0.6 above the minimum of the following 20
    positions, (c) above the maximum of the following 10. *)
Definition crest_qualifies (ys : list Q) (i : nat) : bool :=
  match ys !! i with
  | None => false
  | Some yi =>
      exceeds yi (maximum (take i ys))
      && exceeds_by (6 # 10) yi (next_values 20 i ys ≫= minimum)
      && exceeds yi (next_values 10 i ys ≫= maximum)
  end.

(** Heel, on the elevations of the sub-sequence from the crest on: a
    position is excluded when it drops by more than 0.6 within the next 10
    positions, is above the maximum of the previous 10 and above the maximum
    of the next 20. *)
Definition heel_excluded (ys : list Q) (i : nat) : bool :=
  match ys !! i with
  | None => false
  | Some yi =>
      exceeds_by (6 # 10) yi (next_values 10 i ys ≫= minimum)
      && exceeds yi (previous_values 10 i ys ≫= maximum)
      && exceeds yi (next_values 20 i ys ≫= maximum)
  end.

(** The heel the specification describes: the [x] of the lowest position
    that is not excluded, nothing when every position is excluded. *)
Definition heel_by_spec (p : Profile) (crest_x : Q) : option Q :=
  let subset := loc_from crest_x p in
  let kept := map (fun i => negb (heel_excluded (yvals subset) i))
                  (seq 0 (length subset)) in
  k ← argmin (mask_select kept (yvals subset));
  mask_select kept (index subset) !! k.

(** The trapezoidal rule over consecutive samples, for an integrand [f]. *)
Fixpoint trapezoid_sum (f : Sample -> Q) (l : Profile) : Q :=
  match l with
  | a :: (b :: _) as l' => (x b - x a) * (f a + f b) / 2 + trapezoid_sum f l'
  | _ => 0
  end.

(** The spacing the specification describes: the gap between the x-origins
    (the [x] of the first row) of the first profile of the dataset and of
    the next profile that differs from it. *)
Definition spacing_by_spec (d : list Row) : option Q :=
  match d with
  | [] => None
  | r0 :: d' =>
      r1 ← List.find (fun r => negb (key_eqb (key_of r) (key_of r0))) d';
      Some (row_x r1 - row_x r0)
  end.

Definition is_finite (a : float) : bool :=
  match a with Fin _ => true | _ => false end.

(** The first and the last sampled distance bound [v]. *)
Definition in_x_range (p : Profile) (v : Q) : Prop :=
  exists a b, head p = Some a /\ last p = Some b /\ x a <= v /\ v <= x b.

(** * Auxiliary definitions for the proofs *)

(** A minimum or maximum that may not exist, as a float. *)
Definition of_option (m : option Q) : float :=
  match m with Some q => Fin q | None => NaN end.

(** The Boolean Series [filtered] of [identify_crest], for the elevations
    [ys] of the sub-sequence. *)
Definition crest_filter (ys : list Q) : list bool :=
  let y := map Fin ys in
  sand (sand (sgt y (expanding_max (shift 1 y)))
             (sgt_scalar (ssub y (shift (-20) (rolling_min 20 y))) (6 # 10)))
       (sgt y (shift (-10) (rolling_max 10 y))).

(** The slope Series and the Boolean Series [filtered] of
    [identify_shore]. *)
Definition shore_slope (p : list Sample) : list float :=
  sdiv (ssub (ycol p) (shift 1 (ycol p))) (ssub (xcol p) (shift 1 (xcol p))).

Definition shore_filter (p : list Sample) : list bool :=
  sand (sand (sgt_scalar (ycol p) 0)
             (sgt (ycol p) (expanding_max (shift 1 (ycol p)))))
       (sge_scalar (shift (-4) (rolling_min 5 (shore_slope p))) 0).


(** * Inputs used in examples *)

(** The flat two-point profile of the specification. *)
Definition flat_profile : list Sample := [mkSample 0 5; mkSample 10 5].

(** Two profile lines of one segment, each sampled every unit of distance
    from its own baseline. *)
Definition two_lines : list Row :=
  [mkRow 29 18 0 0 1; mkRow 29 18 0 1 2; mkRow 29 18 0 2 3;
   mkRow 29 18 1 0 1; mkRow 29 18 1 1 2; mkRow 29 18 1 2 2].

(** A row of metrics inside every range, with an empty beach volume and
    therefore an infinite ratio of volumes. *)
Definition infinite_ratio_row : BeachData :=
  mkBeachData (Fin 3) (Fin 30) (Fin 2) (Fin 5) (Fin 12)
              (Fin (1 # 30)) (Fin (1 # 4)) (Fin 0) (Fin 40) PosInf.

(** The same row with too low a dune. *)
Definition low_dune_row : BeachData :=
  mkBeachData (Fin (1 # 2)) (Fin 30) (Fin 2) (Fin (5 # 2)) (Fin 12)
              (Fin (1 # 30)) (Fin (1 # 24)) (Fin 80) (Fin 40) (Fin (1 # 2)).

(** A row inside every range, all of its values finite. *)
Definition plausible_row : BeachData :=
  mkBeachData (Fin 3) (Fin 30) (Fin 2) (Fin 5) (Fin 12)
              (Fin (1 # 30)) (Fin (1 # 4)) (Fin 80) (Fin 40) (Fin (1 # 2)).

(** ** A least-squares cubic, to run the toe search on examples

    The cubic that solves the normal equations of the least-squares
    problem, by Cramer's rule.  It is the least-squares cubic when the
    sub-range has at least four distinct distances; it stands for
    [np.polyfit] in the examples only. *)

Fixpoint det (n : nat) (m : list (list Q)) : Q :=
  match n, m with
  | S n', row :: rest =>
      add_reduce
        (imap (fun j a => (if Nat.even j then a else - a)
                          * det n' (map (delete j) rest)) row)
  | _, _ => 1
  end.

Definition replace_column (k : nat) (v : list Q) (m : list (list Q)) : list (list Q) :=
  zip_with (fun row b => <[k := b]> row) m v.

Definition power_sum (k : nat) (xs ws : list Q) : Q :=
  add_reduce (zip_with (fun v w => v ^ Z.of_nat k * w) xs ws).

Definition lstsq_cubic (xs ys : list Q) : Q * Q * Q * Q :=
  let ones := map (fun _ => 1) xs in
  let m := map (fun j => map (fun k => power_sum (j + k) xs ones) [3; 2; 1; 0]%nat)
               [3; 2; 1; 0]%nat in
  let v := map (fun j => power_sum j xs ys) [3; 2; 1; 0]%nat in
  let d := det 4 m in
  (det 4 (replace_column 0 v m) / d, det 4 (replace_column 1 v m) / d,
   det 4 (replace_column 2 v m) / d, det 4 (replace_column 3 v m) / d).

(** A profile with a zigzag beach, a dune crest at distance 7, a heel at
    distance 12 and a flat back-barrier. *)
Definition dune_profile : list Sample :=
  [mkSample 0 1; mkSample 1 2; mkSample 2 (3 # 2); mkSample 3 3;
   mkSample 4 (5 # 2); mkSample 5 4; mkSample 6 (7 # 2); mkSample 7 5;
   mkSample 8 4; mkSample 9 3; mkSample 10 2; mkSample 11 1;
   mkSample 12 (1 # 2); mkSample 13 1; mkSample 14 1; mkSample 15 1;
   mkSample 16 1; mkSample 17 1; mkSample 18 1; mkSample 19 1;
   mkSample 20 1; mkSample 21 1; mkSample 22 1; mkSample 23 1;
   mkSample 24 1; mkSample 25 1; mkSample 26 1; mkSample 27 1;
   mkSample 28 1; mkSample 29 1].

(** The scenario of the specification: the shore qualifies at distance 2. *)
Definition shore_scenario : list Sample :=
  [mkSample 0 (-1); mkSample 1 (-1 # 2); mkSample 2 (1 # 5); mkSample 3 1;
   mkSample 4 (11 # 10); mkSample 5 3; mkSample 6 3].

(** An elevation that only decreases: no position qualifies as shore. *)
Definition sinking_profile : list Sample :=
  [mkSample 0 (-1); mkSample 1 (-2)].

(** * Further definitions *)

(** The order of the keys of the groups. *)
Definition key_lt (a b : key) : Prop := key_ltb a b = true.

(** ** Block means

    [grouped_mean(profiles, n)] is
    [profiles.groupby(np.arange(len(profiles)) // n).mean()]: row [i] goes
    to the group [i // n], and every column is averaged group by group,
    missing values left out.  A table is the list of its columns; a value
    is finite or missing ([None]).  Infinite values are outside this model
    (the sum of a group that contains one depends on the summation
    algorithm of pandas). *)

(** The mean of the values that are not missing; missing when there is
    none. *)
Definition mean_skipna (l : list (option Q)) : option Q :=
  match omap id l with
  | [] => None
  | v :: vs => Some (add_reduce (v :: vs) / inject_Z (Z.of_nat (length (v :: vs))))
  end.

(** The rows of the group [k]: those at a position [i] with [i // n = k]. *)
Definition block {A} (n k : nat) (col : list A) : list A :=
  map snd (List.filter (fun r => Nat.eqb (fst r / n) k)
                       (zip (seq 0 (length col)) col)).

(** The number of groups: the keys are [0], ..., [(len - 1) // n]. *)
Definition block_count (n len : nat) : nat :=
  match len with
  | O => O
  | S m => S (m / n)
  end.

Definition grouped_column (n : nat) (col : list (option Q)) : list (option Q) :=
  map (fun k => mean_skipna (block n k col)) (seq 0 (block_count n (length col))).

Definition grouped_mean (profiles : list (list (option Q))) (n : nat)
  : list (list (option Q)) :=
  map (grouped_column n) profiles.

(** ** A profile with the four landmarks *)



(** * Proofs *)

(** ** Comparisons *)

Lemma Qltb_lt (a b : Q) : Qltb a b = true <-> a < b.
Proof.
  unfold Qltb. rewrite negb_true_iff.
  destruct (Qle_bool b a) eqn:E.
  - apply Qle_bool_iff in E. split; [discriminate | intros H; lra].
  - split; [intros _ | reflexivity].
    apply Qnot_le_lt. intros H. apply Qle_bool_iff in H. congruence.
Qed.

Lemma Qltb_ge (a b : Q) : Qltb a b = false <-> b <= a.
Proof.
  unfold Qltb. rewrite negb_false_iff. apply Qle_bool_iff.
Qed.

Lemma Qle_bool_gt (a b : Q) : Qle_bool a b = false <-> b < a.
Proof.
  rewrite <- Qltb_lt. unfold Qltb. destruct (Qle_bool a b); simpl; split; congruence.
Qed.

Ltac qbool :=
  repeat match goal with
  | H : Qltb _ _ = true |- _ => apply Qltb_lt in H
  | H : Qltb _ _ = false |- _ => apply Qltb_ge in H
  | H : Qle_bool _ _ = true |- _ => apply Qle_bool_iff in H
  | H : Qle_bool _ _ = false |- _ => apply Qle_bool_gt in H
  | H : Qeq_bool _ _ = true |- _ => apply Qeq_bool_iff in H
  | H : Qeq_bool _ _ = false |- _ => apply Qeq_bool_neq in H
  | |- Qltb _ _ = true => apply Qltb_lt
  | |- Qltb _ _ = false => apply Qltb_ge
  | |- Qle_bool _ _ = true => apply Qle_bool_iff
  | |- Qle_bool _ _ = false => apply Qle_bool_gt
  | |- Qeq_bool _ _ = true => apply Qeq_bool_iff
  end.

Lemma flt_irrefl (a : float) : flt a a = false.
Proof. destruct a; simpl; trivial. qbool. lra. Qed.

Lemma flt_trans (a b c : float) :
  flt a b = true -> flt b c = true -> flt a c = true.
Proof.
  destruct a, b, c; simpl; try congruence. intros. qbool. lra.
Qed.

(** A value above [fmax a b] is above [a] and above [b]. *)
Lemma flt_fmax (a b v : float) :
  flt (fmax a b) v = true -> flt a v = true /\ flt b v = true.
Proof.
  destruct a, b, v; simpl; try congruence; try (split; congruence).
  all: try (destruct (Qltb _ _) eqn:E; simpl; intros; split; trivial; qbool; lra).
Qed.

Lemma flt_foldl_fmax (l : Series) (a v : float) :
  flt (foldl fmax a l) v = true ->
  flt a v = true /\ Forall (fun u => flt u v = true) l.
Proof.
  revert a. induction l as [|c l IH]; simpl; intros a H.
  - split; [trivial | constructor].
  - apply IH in H as [H1 H2]. apply flt_fmax in H1 as [Ha Hc].
    split; [trivial | constructor; trivial].
Qed.

Lemma flt_reduce_fmax (l : Series) (v : float) :
  In v l -> flt (reduce fmax l) v = false.
Proof.
  intros Hin. destruct (flt (reduce fmax l) v) eqn:E; trivial.
  destruct l as [|c l]; [destruct Hin|]. simpl in E.
  apply flt_foldl_fmax in E as [Hc Hl].
  assert (flt v v = true) as Hv.
  { destruct Hin as [->|Hin]; trivial.
    rewrite Forall_forall in Hl. apply Hl. apply list_elem_of_In. trivial. }
  rewrite flt_irrefl in Hv. discriminate.
Qed.

(** ** Series, position by position *)

Lemma lookup_map {A B} (f : A -> B) (l : list A) (i : nat) :
  map f l !! i = f <$> l !! i.
Proof. exact (list_lookup_fmap f l i). Qed.

Lemma shift_length (k : Z) (s : Series) : length (shift k s) = length s.
Proof. apply length_imap. Qed.

Lemma rolling_length op (w : nat) (s : Series) : length (rolling op w s) = length s.
Proof. apply length_imap. Qed.

Lemma shift_lookup (k : Z) (s : Series) (i : nat) :
  (i < length s)%nat -> shift k s !! i = Some (cell_at s (Z.of_nat i - k)).
Proof.
  intros Hi. unfold shift. rewrite list_lookup_imap.
  apply lookup_lt_is_Some in Hi as [v ->]. reflexivity.
Qed.

Lemma rolling_lookup op (w : nat) (s : Series) (i : nat) :
  (i < length s)%nat ->
  rolling op w s !! i =
    Some (if decide (w <= S i)%nat then reduce op (window w i s) else NaN).
Proof.
  intros Hi. unfold rolling. rewrite list_lookup_imap.
  apply lookup_lt_is_Some in Hi as [v ->]. reflexivity.
Qed.

(** A rolling window ends at the current position. *)
Lemma window_last (w i : nat) (s : Series) (v : float) :
  (0 < w)%nat -> (w <= S i)%nat -> s !! i = Some v -> In v (window w i s).
Proof.
  intros Hw Hle Hv. apply list_elem_of_In, list_elem_of_lookup.
  exists (w - 1)%nat. unfold window.
  rewrite lookup_take. destruct (decide (w - 1 < w)%nat); [|lia].
  rewrite lookup_drop. replace (S i - w + (w - 1))%nat with i by lia. trivial.
Qed.

(** ** The heel search never resolves *)

(** No value exceeds the maximum of a trailing window that contains it. *)
Lemma sgt_rolling_max (w : nat) (s : Series) (i : nat) (b : bool) :
  (0 < w)%nat -> sgt s (rolling_max w s) !! i = Some b -> b = false.
Proof.
  intros Hw. unfold sgt, rolling_max. rewrite lookup_zip_with.
  destruct (s !! i) as [v|] eqn:Hv; simpl; [|discriminate].
  rewrite rolling_lookup by (eapply lookup_lt_Some; eauto). simpl.
  intros [= <-]. unfold fgt. destruct (decide (w <= S i)%nat).
  - apply flt_reduce_fmax. eapply window_last; eauto.
  - reflexivity.
Qed.

Lemma forallb_lookup {A} (f : A -> bool) (l : list A) :
  (forall i a, l !! i = Some a -> f a = true) -> forallb f l = true.
Proof.
  intros H. apply forallb_forall. intros a Ha.
  apply list_elem_of_In, list_elem_of_lookup in Ha as [i Hi]. eauto.
Qed.

Lemma identify_heel_absent (profile_df : Profile) (crest_x : Q) :
  identify_heel profile_df crest_x = Returned None.
Proof.
  unfold identify_heel.
  match goal with |- (if forallb id ?m then _ else _) = _ =>
    assert (forallb id m = true) as -> end; [|reflexivity].
  apply forallb_lookup. intros i a. unfold snot, sand.
  rewrite lookup_map, lookup_zip_with.
  destruct (zip_with andb _ _ !! i) as [c|] eqn:Hc; simpl; [|discriminate].
  rewrite lookup_zip_with in Hc.
  destruct (sgt_scalar _ _ !! i) as [c1|]; simpl in Hc; [|discriminate].
  destruct (sgt _ (rolling_max 10 _) !! i) as [c2|] eqn:H2; simpl in Hc; [|discriminate].
  apply sgt_rolling_max in H2; [|lia]. subst c2.
  injection Hc as <-. rewrite andb_false_r. simpl.
  destruct (sgt _ _ !! i); simpl; [|discriminate]. intros [= <-]. reflexivity.
Qed.

(** ** Minima and maxima of finite windows *)

Lemma fmin_Fin (a b : Q) : fmin (Fin a) (Fin b) = Fin (Qmin a b).
Proof.
  unfold fmin, flt, Qltb, Qle_bool, Qmin, GenericMinMax.gmin, Qcompare, Z.leb.
  destruct (_ ?= _)%Z; reflexivity.
Qed.

Lemma fmax_Fin (a b : Q) : fmax (Fin a) (Fin b) = Fin (Qmax a b).
Proof.
  unfold fmax, flt, Qltb, Qle_bool, Qmax, GenericMinMax.gmax, Qcompare, Z.leb.
  rewrite (Z.compare_antisym (Qnum a * QDen b) (Qnum b * QDen a)).
  destruct (_ ?= _)%Z; reflexivity.
Qed.

Lemma fmax_skipna_Fin (a b : Q) : fmax_skipna (Fin a) (Fin b) = Fin (Qmax a b).
Proof. rewrite <- fmax_Fin. reflexivity. Qed.

Lemma foldl_Fin (op : float -> float -> float) (f : Q -> Q -> Q) :
  (forall a b, op (Fin a) (Fin b) = Fin (f a b)) ->
  forall (l : list Q) (a : Q), foldl op (Fin a) (map Fin l) = Fin (foldl f a l).
Proof.
  intros Hop. induction l as [|b l IH]; simpl; intros a; trivial.
  rewrite Hop. apply IH.
Qed.

Lemma reduce_fmin_Fin (l : list Q) : reduce fmin (map Fin l) = of_option (minimum l).
Proof. destruct l as [|a l]; simpl; trivial. apply foldl_Fin, fmin_Fin. Qed.

Lemma reduce_fmax_Fin (l : list Q) : reduce fmax (map Fin l) = of_option (maximum l).
Proof. destruct l as [|a l]; simpl; trivial. apply foldl_Fin, fmax_Fin. Qed.

Lemma expanding_fmax_Fin (l : list Q) :
  foldl fmax_skipna NaN (NaN :: map Fin l) = of_option (maximum l).
Proof. destruct l as [|a l]; simpl; trivial. apply foldl_Fin, fmax_skipna_Fin. Qed.

Lemma fgt_of_option (a : Q) (m : option Q) :
  fgt (Fin a) (of_option m) = exceeds a m.
Proof. destruct m; reflexivity. Qed.

Lemma fgt_fsub_of_option (t a : Q) (m : option Q) :
  fgt (fsub (Fin a) (of_option m)) (Fin t) = exceeds_by t a m.
Proof. destruct m; reflexivity. Qed.

(** ** Shifted and rolling Series of finite values *)

Lemma cell_at_nat (s : Series) (i : nat) :
  cell_at s (Z.of_nat i) = default NaN (s !! i).
Proof.
  unfold cell_at. destruct (Z.ltb_spec (Z.of_nat i) 0); [lia|].
  rewrite Nat2Z.id. reflexivity.
Qed.

Lemma take_map {A B} (f : A -> B) (n : nat) (l : list A) :
  take n (map f l) = map f (take n l).
Proof. symmetry. apply (fmap_take f). Qed.

Lemma drop_map {A B} (f : A -> B) (n : nat) (l : list A) :
  drop n (map f l) = map f (drop n l).
Proof. symmetry. apply (fmap_drop f). Qed.

(** [s.shift(1)] up to position [i]: a [NaN], then the values before [i]. *)
Lemma take_shift_1 (ys : list Q) (i : nat) :
  (i < length ys)%nat ->
  take (S i) (shift 1 (map Fin ys)) = NaN :: map Fin (take i ys).
Proof.
  intros Hi. apply list_eq. intros j.
  rewrite lookup_take. destruct (decide (j < S i)%nat) as [Hj|Hj].
  - rewrite shift_lookup by (rewrite length_map; lia).
    destruct j as [|j]; simpl; trivial.
    replace (Z.of_nat (S j) - 1)%Z with (Z.of_nat j) by lia.
    rewrite cell_at_nat, !lookup_map, lookup_take.
    destruct (decide (j < i)%nat); [|lia].
    destruct (lookup_lt_is_Some_2 ys j) as [v ->]; [lia | reflexivity].
  - symmetry. apply lookup_ge_None. simpl. rewrite length_map, length_take. lia.
Qed.

(** [s.rolling(n).agg().shift(-n)] at position [i]: the aggregate of the [n]
    following values, [NaN] when fewer than [n] values follow. *)
Lemma shift_rolling_lookup op (n : nat) (ys : list Q) (i : nat) :
  (0 < n)%nat -> (i < length ys)%nat ->
  shift (- Z.of_nat n) (rolling op n (map Fin ys)) !! i =
    Some (match next_values n i ys with
          | Some l => reduce op (map Fin l)
          | None => NaN
          end).
Proof.
  intros Hn Hi. rewrite shift_lookup by (rewrite rolling_length, length_map; lia).
  f_equal. replace (Z.of_nat i - - Z.of_nat n)%Z with (Z.of_nat (i + n)) by lia.
  rewrite cell_at_nat. unfold next_values.
  destruct (decide (i + n < length ys)%nat) as [Hlt|Hge].
  - rewrite rolling_lookup by (rewrite length_map; lia). simpl.
    destruct (decide (n <= S (i + n))%nat); [|lia].
    unfold window. replace (S (i + n) - n)%nat with (S i) by lia.
    rewrite drop_map, take_map. reflexivity.
  - rewrite (proj2 (lookup_ge_None _ _)); [reflexivity|].
    rewrite rolling_length, length_map. lia.
Qed.

Lemma expanding_max_lookup (s : Series) (i : nat) :
  (i < length s)%nat ->
  expanding_max s !! i = Some (foldl fmax_skipna NaN (take (S i) s)).
Proof.
  intros Hi. unfold expanding_max. rewrite list_lookup_imap.
  apply lookup_lt_is_Some in Hi as [v ->]. reflexivity.
Qed.

(** ** The three conditions of the crest search, position by position *)

Lemma new_running_max_lookup (ys : list Q) (i : nat) (yi : Q) :
  ys !! i = Some yi ->
  sgt (map Fin ys) (expanding_max (shift 1 (map Fin ys))) !! i =
    Some (exceeds yi (maximum (take i ys))).
Proof.
  intros Hyi. pose proof (lookup_lt_Some _ _ _ Hyi) as Hi.
  unfold sgt. rewrite lookup_zip_with, lookup_map, Hyi. simpl.
  rewrite expanding_max_lookup by (rewrite shift_length, length_map; lia). simpl.
  rewrite take_shift_1 by trivial.
  rewrite expanding_fmax_Fin, fgt_of_option. reflexivity.
Qed.

Lemma above_next_max_lookup (n : nat) (ys : list Q) (i : nat) (yi : Q) :
  (0 < n)%nat -> ys !! i = Some yi ->
  sgt (map Fin ys) (shift (- Z.of_nat n) (rolling_max n (map Fin ys))) !! i =
    Some (exceeds yi (next_values n i ys ≫= maximum)).
Proof.
  intros Hn Hyi. pose proof (lookup_lt_Some _ _ _ Hyi) as Hi.
  unfold sgt, rolling_max. rewrite lookup_zip_with, lookup_map, Hyi. simpl.
  rewrite shift_rolling_lookup by trivial. simpl. f_equal.
  destruct (next_values n i ys) as [l|]; simpl; [|reflexivity].
  rewrite reduce_fmax_Fin. apply fgt_of_option.
Qed.

Lemma drop_next_min_lookup (n : nat) (t : Q) (ys : list Q) (i : nat) (yi : Q) :
  (0 < n)%nat -> ys !! i = Some yi ->
  sgt_scalar (ssub (map Fin ys) (shift (- Z.of_nat n) (rolling_min n (map Fin ys)))) t !! i =
    Some (exceeds_by t yi (next_values n i ys ≫= minimum)).
Proof.
  intros Hn Hyi. pose proof (lookup_lt_Some _ _ _ Hyi) as Hi.
  unfold sgt_scalar, ssub, rolling_min.
  rewrite lookup_map, lookup_zip_with, lookup_map, Hyi. simpl.
  rewrite shift_rolling_lookup by trivial. simpl. f_equal.
  destruct (next_values n i ys) as [l|]; simpl; [|reflexivity].
  rewrite reduce_fmin_Fin. apply fgt_fsub_of_option.
Qed.

Lemma ycol_yvals (p : Profile) : ycol p = map Fin (yvals p).
Proof. unfold ycol, yvals. rewrite map_map. reflexivity. Qed.

Lemma crest_filter_lookup (ys : list Q) (i : nat) :
  (i < length ys)%nat -> crest_filter ys !! i = Some (crest_qualifies ys i).
Proof.
  intros Hi. destruct (lookup_lt_is_Some_2 ys i Hi) as [yi Hyi].
  pose proof (new_running_max_lookup ys i yi Hyi) as Ha.
  pose proof (drop_next_min_lookup 20 (6 # 10) ys i yi ltac:(lia) Hyi) as Hb.
  pose proof (above_next_max_lookup 10 ys i yi ltac:(lia) Hyi) as Hc.
  unfold crest_filter, sand, crest_qualifies. rewrite Hyi, !lookup_zip_with.
  change (-20)%Z with (- Z.of_nat 20)%Z. change (-10)%Z with (- Z.of_nat 10)%Z.
  rewrite Ha, Hb, Hc. reflexivity.
Qed.

Lemma crest_filter_length (ys : list Q) : length (crest_filter ys) = length ys.
Proof.
  unfold crest_filter, sand, sgt, sgt_scalar, ssub.
  repeat first [rewrite length_zip_with | rewrite length_map | rewrite shift_length
               | rewrite rolling_length | rewrite length_imap].
  unfold expanding_max, rolling_max, rolling_min.
  repeat first [rewrite length_zip_with | rewrite length_map | rewrite shift_length
               | rewrite rolling_length | rewrite length_imap].
  lia.
Qed.

(** ** The first maximum of a Boolean Series *)

Lemma first_true_spec (b : list bool) :
  existsb id b = true ->
  b !! first_true b = Some true /\
  forall j, (j < first_true b)%nat -> b !! j = Some false.
Proof.
  induction b as [|[] b IH]; simpl.
  - discriminate.
  - intros _. split; [reflexivity | intros j Hj; lia].
  - intros H. rewrite H. destruct (IH H) as [H1 H2]. split; [exact H1|].
    intros [|j] Hj; simpl; [reflexivity | apply H2; lia].
Qed.

Lemma first_true_none (b : list bool) :
  existsb id b = false -> first_true b = 0%nat /\ forall j v, b !! j = Some v -> v = false.
Proof.
  intros H. split.
  - destruct b as [|[] b]; simpl in *; trivial. rewrite H. trivial.
  - intros j v Hv. destruct v; trivial.
    assert (existsb id b = true) as E; [|congruence].
    apply existsb_exists. exists true. split; trivial.
    apply list_elem_of_In, list_elem_of_lookup. eauto.
Qed.

Lemma find_seq_Some (q : nat -> bool) (n a i : nat) :
  List.find q (seq a n) = Some i <->
  (a <= i < a + n)%nat /\ q i = true /\ forall j, (a <= j < i)%nat -> q j = false.
Proof.
  revert a. induction n as [|n IH]; intros a; simpl.
  - split; [discriminate | intros [H _]; lia].
  - destruct (q a) eqn:Ea.
    + split.
      * intros [= <-]. repeat split; trivial; try lia.
      * intros (Hr & Hq & Hmin). f_equal.
        destruct (decide (a = i)) as [|Hne]; trivial.
        rewrite Hmin in Ea by lia. discriminate.
    + rewrite IH. split.
      * intros (Hr & Hq & Hmin). repeat split; trivial; try lia.
        intros j Hj. destruct (decide (j = a)) as [->|]; trivial. apply Hmin. lia.
      * intros (Hr & Hq & Hmin).
        assert (a <> i) by (intros ->; congruence).
        repeat split; trivial; try lia. intros j Hj. apply Hmin. lia.
Qed.

Lemma find_seq_None (q : nat -> bool) (n a : nat) :
  List.find q (seq a n) = None <-> forall i, (a <= i < a + n)%nat -> q i = false.
Proof.
  revert a. induction n as [|n IH]; intros a; simpl.
  - split; [intros _ i Hi; lia | trivial].
  - destruct (q a) eqn:Ea.
    + split; [discriminate | intros H; rewrite H in Ea by lia; discriminate].
    + rewrite IH. split; intros H i Hi.
      * destruct (decide (i = a)) as [->|]; trivial. apply H. lia.
      * apply H. lia.
Qed.

Lemma first_qualifying_Some (q : nat -> bool) (n i : nat) :
  first_qualifying q n = Some i <->
  (i < n)%nat /\ q i = true /\ forall j, (j < i)%nat -> q j = false.
Proof.
  unfold first_qualifying. rewrite find_seq_Some. simpl.
  split; intros (H1 & H2 & H3); repeat split; trivial; try lia.
  - intros j Hj. apply H3. lia.
  - intros j Hj. apply H3. lia.
Qed.

Lemma first_qualifying_None (q : nat -> bool) (n : nat) :
  first_qualifying q n = None <-> forall i, (i < n)%nat -> q i = false.
Proof.
  unfold first_qualifying. rewrite find_seq_None. simpl.
  split; intros H i Hi; apply H; lia.
Qed.

(** A Boolean Series that tabulates [q]: its first maximum is the first
    qualifying position. *)
Lemma first_qualifying_first_true (q : nat -> bool) (b : list bool) :
  (forall i, (i < length b)%nat -> b !! i = Some (q i)) ->
  first_qualifying q (length b) =
    if existsb id b then Some (first_true b) else None.
Proof.
  intros Hb. destruct (existsb id b) eqn:E.
  - destruct (first_true_spec b E) as [H1 H2].
    pose proof (lookup_lt_Some _ _ _ H1) as Hlt.
    apply first_qualifying_Some. repeat split; trivial.
    + rewrite Hb in H1 by trivial. congruence.
    + intros j Hj. specialize (H2 j Hj). rewrite Hb in H2 by lia. congruence.
  - destruct (first_true_none b E) as [_ H].
    apply first_qualifying_None. intros i Hi.
    apply (H i). apply Hb. trivial.
Qed.

(** ** Strictly increasing indexes *)

Lemma increasing_cons (a : Q) (l : list Q) :
  strictly_increasing (a :: l) = true <->
  Forall (fun b => a < b) l /\ strictly_increasing l = true.
Proof.
  revert a. induction l as [|b l IH]; intros a.
  - simpl. split; [intros _; split; [constructor | trivial] | trivial].
  - change (strictly_increasing (a :: b :: l))
      with (Qltb a b && strictly_increasing (b :: l)).
    rewrite andb_true_iff, Qltb_lt. split.
    + intros [Hab Hl]. split; trivial. constructor; trivial.
      apply IH in Hl as [Hl _]. eapply Forall_impl; [exact Hl|].
      simpl. intros c Hc. lra.
    + intros [Hf Hl]. inversion Hf; subst. split; trivial.
Qed.

Lemma increasing_lookup (l : list Q) (i j : nat) (a b : Q) :
  strictly_increasing l = true -> (i < j)%nat ->
  l !! i = Some a -> l !! j = Some b -> a < b.
Proof.
  revert i j. induction l as [|c l IH]; intros i j Hs Hij Ha Hb.
  - discriminate.
  - apply increasing_cons in Hs as [Hf Hs].
    destruct j as [|j]; [lia|]. simpl in Hb. destruct i as [|i]; simpl in Ha.
    + injection Ha as ->. rewrite Forall_forall in Hf. apply Hf.
      apply list_elem_of_lookup. eauto.
    + apply (IH i j); trivial. lia.
Qed.

Lemma increasing_filter (f : Sample -> bool) (p : Profile) :
  strictly_increasing (index p) = true ->
  strictly_increasing (index (List.filter f p)) = true.
Proof.
  induction p as [|s p IH]; simpl; trivial. intros H.
  apply increasing_cons in H as [Hf Hs]. specialize (IH Hs).
  destruct (f s); trivial. apply increasing_cons. split; trivial.
  rewrite Forall_forall in *. intros b Hb. apply Hf.
  apply list_elem_of_In in Hb. apply list_elem_of_In.
  unfold index in *. apply in_map_iff in Hb as (r & <- & Hr).
  apply in_map. apply filter_In in Hr. tauto.
Qed.

(** ** Label lookup on an increasing index *)

Lemma filter_nil {A} (f : A -> bool) (l : list A) :
  (forall a, In a l -> f a = false) -> List.filter f l = [].
Proof.
  induction l as [|a l IH]; simpl; trivial. intros H.
  rewrite (H a) by (left; trivial). apply IH. intros b Hb. apply H. right. trivial.
Qed.

Lemma in_zip_fst {A B} (l : list A) (k : list B) (r : A * B) :
  In r (zip l k) -> In (fst r) l.
Proof.
  revert k. induction l as [|a l IH]; intros [|b k]; simpl; try tauto.
  intros [<-|H]; [left; trivial | right; eauto].
Qed.

Lemma getitem_lookup {A} (idx : list Q) (s : list A) (i : nat) (l : Q) (v : A) :
  strictly_increasing idx = true ->
  idx !! i = Some l -> s !! i = Some v -> getitem idx s l = Returned v.
Proof.
  intros Hs Hl Hv. unfold getitem.
  assert (List.filter (fun r => Qeq_bool (fst r) l) (zip idx s) = [(l, v)]) as ->;
    [|reflexivity].
  revert s i Hs Hl Hv. induction idx as [|a idx IH]; intros s i Hs Hl Hv.
  - discriminate.
  - destruct s as [|v0 s]; [discriminate|].
    apply increasing_cons in Hs as [Hf Hs]. rewrite Forall_forall in Hf.
    change (zip (a :: idx) (v0 :: s)) with ((a, v0) :: zip idx s).
    simpl List.filter. destruct i as [|i]; simpl in Hl, Hv.
    + injection Hl as ->. injection Hv as ->.
      rewrite (proj2 (Qeq_bool_iff l l)) by reflexivity. f_equal.
      apply filter_nil. intros r Hr. apply in_zip_fst in Hr.
      apply list_elem_of_In, Hf in Hr.
      destruct (Qeq_bool (fst r) l) eqn:E; trivial. qbool. lra.
    + assert (a < l) as Hal by (apply Hf, list_elem_of_lookup; eauto).
      destruct (Qeq_bool a l) eqn:E; [qbool; lra|].
      eapply IH; eauto.
Qed.

(** [filtered.idxmax()] followed by [filtered[x_coord]]: the label of the
    first maximum, and whether that maximum is [True]. *)
Lemma idxmax_getitem (idx : list Q) (b : list bool) :
  strictly_increasing idx = true -> length b = length idx -> idx <> [] ->
  exists l, idx !! first_true b = Some l /\
            idxmax idx b = Returned l /\
            getitem idx b l = Returned (existsb id b).
Proof.
  intros Hs Hlen Hne. destruct (existsb id b) eqn:E.
  - destruct (first_true_spec b E) as [H1 _].
    pose proof (lookup_lt_Some _ _ _ H1) as Hlt.
    destruct (lookup_lt_is_Some_2 idx (first_true b)) as [l Hl]; [lia|].
    exists l. unfold idxmax. rewrite Hl. repeat split; trivial.
    eapply getitem_lookup; eauto.
  - destruct (first_true_none b E) as [H0 Hall].
    destruct idx as [|l idx]; [congruence|]. destruct b as [|b0 b]; [discriminate|].
    exists l. unfold idxmax. rewrite H0. simpl. repeat split; trivial.
    rewrite <- (Hall 0%nat b0 eq_refl).
    apply (getitem_lookup (l :: idx) (b0 :: b) 0); trivial.
Qed.

(** ** Label slices *)

Lemma loc_range_In (a b : Q) (p : Profile) (s : Sample) :
  In s (loc_range a b p) <-> In s p /\ a <= x s /\ x s <= b.
Proof.
  unfold loc_range. rewrite filter_In, andb_true_iff, !Qle_bool_iff. tauto.
Qed.

Lemma loc_from_In (a : Q) (p : Profile) (s : Sample) :
  In s (loc_from a p) <-> In s p /\ a <= x s.
Proof. unfold loc_from. rewrite filter_In, Qle_bool_iff. tauto. Qed.

(** ** The crest search *)

Lemma identify_crest_unfold (p : Profile) (s : Q) :
  identify_crest p s =
    (let subset := loc_from s p in
     let filtered := crest_filter (yvals subset) in
     x_coord ← idxmax (index subset) filtered;
     found ← getitem (index subset) filtered x_coord;
     if (found : bool) then mret (Some x_coord) else mret None).
Proof.
  unfold identify_crest, crest_filter. simpl. rewrite ycol_yvals. reflexivity.
Qed.

Lemma index_length (p : Profile) : length (index p) = length p.
Proof. apply length_map. Qed.

Lemma yvals_length (p : Profile) : length (yvals p) = length p.
Proof. apply length_map. Qed.

(** The search returns the label of the first qualifying position, and
    nothing when no position qualifies. *)
Lemma identify_crest_result (p : Profile) (s : Q) :
  strictly_increasing (index p) = true -> loc_from s p <> [] ->
  identify_crest p s =
    Returned (first_qualifying (crest_qualifies (yvals (loc_from s p)))
                               (length (loc_from s p))
              ≫= (index (loc_from s p) !!.)).
Proof.
  intros Hs Hne. rewrite identify_crest_unfold. simpl.
  set (subset := loc_from s p) in *. set (ys := yvals subset).
  assert (length (crest_filter ys) = length subset) as Hlen
    by (rewrite crest_filter_length; apply yvals_length).
  destruct (idxmax_getitem (index subset) (crest_filter ys)) as (l & Hl & -> & Hg).
  { apply increasing_filter. trivial. }
  { rewrite index_length. trivial. }
  { destruct subset; [congruence | discriminate]. }
  simpl. rewrite Hg. simpl.
  rewrite <- Hlen, (first_qualifying_first_true (crest_qualifies ys)).
  - destruct (existsb id (crest_filter ys)); simpl; [rewrite Hl|]; reflexivity.
  - intros i Hi. apply crest_filter_lookup.
    rewrite crest_filter_length in Hi. trivial.
Qed.

(** C6.  For a profile with a strictly increasing index and a shore from
    which the profile has samples, [identify_crest] returns (without
    raising) the label of the first position of the sub-sequence from the
    shore on that is a new running maximum, lies more than 0.6 above the
    minimum of the following 20 positions and above the maximum of the
    following 10; it returns [None] exactly when no position qualifies.  A
    window that runs past the end of the sub-sequence makes the position
    non-qualifying, and so does the absence of an earlier elevation: the
    first position of the sub-sequence, the shore itself, never
    qualifies. *)
Theorem identify_crest_first_qualifying (p : Profile) (s : Q) :
  strictly_increasing (index p) = true -> loc_from s p <> [] ->
  let subset := loc_from s p in
  let ys := yvals subset in
  (forall a, In a subset <-> In a p /\ s <= x a) /\
  (exists r, identify_crest p s = Returned r) /\
  (forall c, identify_crest p s = Returned (Some c) <->
     exists i, index subset !! i = Some c /\ crest_qualifies ys i = true /\
               forall j, (j < i)%nat -> crest_qualifies ys j = false) /\
  (identify_crest p s = Returned None <->
     forall i, crest_qualifies ys i = false) /\
  (forall i, (length ys <= i + 20)%nat -> crest_qualifies ys i = false) /\
  crest_qualifies ys 0 = false.
Proof.
  intros Hs Hne subset ys. split; [intros a; apply loc_from_In|].
  rewrite (identify_crest_result p s Hs Hne).
  fold subset. fold ys.
  assert (forall i, (length subset <= i)%nat -> crest_qualifies ys i = false) as Hout.
  { intros i Hi. unfold crest_qualifies.
    rewrite (proj2 (lookup_ge_None ys i)); trivial.
    unfold ys. rewrite yvals_length. trivial. }
  split; [eauto|]. split; [|split].
  - intros c. split.
    + destruct (first_qualifying _ _) as [i|] eqn:E; simpl; [|discriminate].
      intros [= Hc]. apply first_qualifying_Some in E as (Hi & Hq & Hmin).
      exists i. auto.
    + intros (i & Hc & Hq & Hmin).
      assert (first_qualifying (crest_qualifies ys) (length subset) = Some i) as ->.
      { apply first_qualifying_Some. repeat split; trivial.
        apply lookup_lt_Some in Hc. rewrite index_length in Hc. trivial. }
      simpl. rewrite Hc. reflexivity.
  - split.
    + destruct (first_qualifying _ _) as [i|] eqn:E; simpl.
      * apply first_qualifying_Some in E as (Hi & Hq & Hmin).
        destruct (lookup_lt_is_Some_2 (index subset) i) as [c ->];
          [rewrite index_length; trivial | discriminate].
      * intros _ i. destruct (decide (i < length subset)%nat).
        -- eapply first_qualifying_None in E; eauto.
        -- apply Hout. lia.
    + intros Hall.
      assert (first_qualifying (crest_qualifies ys) (length subset) = None) as ->;
        [|reflexivity].
      apply first_qualifying_None. auto.
  - split.
    + intros i Hi. unfold crest_qualifies.
      destruct (ys !! i) as [yi|]; trivial.
      unfold next_values at 1. destruct (decide (i + 20 < length ys)%nat); [lia|].
      simpl. apply andb_false_intro1, andb_false_intro2. reflexivity.
    + unfold crest_qualifies. destruct (ys !! 0%nat); reflexivity.
Qed.

(** ** The first minimum *)

Lemma argmin_from_spec (l pre : list Q) (best : nat) (vbest : Q) :
  pre !! best = Some vbest ->
  (forall j r, pre !! j = Some r -> vbest <= r) ->
  (forall j r, (j < best)%nat -> pre !! j = Some r -> vbest < r) ->
  exists r, (pre ++ l) !! argmin_from best vbest (length pre) l = Some r /\
    (forall j r', (pre ++ l) !! j = Some r' -> r <= r') /\
    (forall j r', (j < argmin_from best vbest (length pre) l)%nat ->
                  (pre ++ l) !! j = Some r' -> r < r').
Proof.
  revert pre best vbest. induction l as [|v l IH]; intros pre best vbest Hb Hle Hlt.
  - simpl. rewrite app_nil_r. eauto.
  - simpl. replace (pre ++ v :: l) with ((pre ++ [v]) ++ l)
      by (rewrite <- app_assoc; reflexivity).
    replace (S (length pre)) with (length (pre ++ [v]))
      by (rewrite length_app; simpl; lia).
    assert (forall j r, (pre ++ [v]) !! j = Some r ->
              pre !! j = Some r \/ (j = length pre /\ r = v)) as Hsplit.
    { intros j r Hj. destruct (decide (j < length pre)%nat).
      - rewrite lookup_app_l in Hj by trivial. auto.
      - rewrite lookup_app_r in Hj by lia.
        destruct (j - length pre)%nat eqn:E; simpl in Hj; [|discriminate].
        right. split; [lia | congruence]. }
    destruct (Qltb v vbest) eqn:E; qbool.
    + apply IH.
      * rewrite lookup_app_r by lia.
        replace (length pre - length pre)%nat with 0%nat by lia. reflexivity.
      * intros j r Hj. destruct (Hsplit j r Hj) as [H|[_ ->]]; [|lra].
        specialize (Hle j r H). lra.
      * intros j r Hj Hr.
        destruct (Hsplit j r Hr) as [H|[-> _]]; [|lia].
        specialize (Hle j r H). lra.
    + apply IH.
      * rewrite lookup_app_l; trivial. eapply lookup_lt_Some; eauto.
      * intros j r Hj. destruct (Hsplit j r Hj) as [H|[_ ->]]; eauto.
      * intros j r Hj Hr. destruct (Hsplit j r Hr) as [H|[-> _]]; eauto.
        apply lookup_lt_Some in Hb. lia.
Qed.

Lemma argmin_spec (l : list Q) :
  l <> [] ->
  exists k r, argmin l = Some k /\ l !! k = Some r /\
    (forall j r', l !! j = Some r' -> r <= r') /\
    (forall j r', (j < k)%nat -> l !! j = Some r' -> r < r').
Proof.
  destruct l as [|v l]; [congruence|]. intros _.
  destruct (argmin_from_spec l [v] 0 v) as (r & H1 & H2 & H3).
  - reflexivity.
  - intros [|j] r; simpl; [intros [= ->]; lra | discriminate].
  - intros j r Hj. lia.
  - exists (argmin_from 0 v 1 l), r. simpl in *. auto.
Qed.

(** ** The toe search *)

Section ToeProofs.

Variable polyfit : list Q -> list Q -> Q * Q * Q * Q.

Lemma differences_length (subset : Profile) :
  length (differences polyfit subset) = length subset.
Proof.
  unfold differences. destruct (polyfit _ _) as [[[A B] C] D]. apply length_map.
Qed.



End ToeProofs.

(** ** The chain of searches *)

Section ChainProofs.

Variable shore : Profile -> outcome (option Q).
Variable crest : Profile -> Q -> outcome (option Q).
Variable toe : Profile -> Q -> Q -> outcome (option Q).
Variable heel : Profile -> Q -> outcome (option Q).

Abbreviation chain := (identify_features_with shore crest toe heel).

Ltac run_chain :=
  unfold identify_features_with, call, tell, lift, mbind, M_bind, mret, M_ret;
  simpl.

Lemma chain_shore_absent (p : Profile) :
  shore p = Returned None ->
  chain p = ([Searched Shore; Printed Shore], Returned None).
Proof. intros H. run_chain. rewrite H. reflexivity. Qed.

Lemma chain_crest_absent (p : Profile) (s : Q) :
  shore p = Returned (Some s) -> crest p s = Returned None ->
  chain p = ([Searched Shore; Searched Crest; Printed Crest], Returned None).
Proof. intros H1 H2. run_chain. rewrite H1, H2. reflexivity. Qed.

Lemma chain_toe_absent (p : Profile) (s c : Q) :
  shore p = Returned (Some s) -> crest p s = Returned (Some c) ->
  toe p s c = Returned None ->
  chain p = ([Searched Shore; Searched Crest; Searched Toe; Printed Toe],
             Returned None).
Proof. intros H1 H2 H3. run_chain. rewrite H1, H2, H3. reflexivity. Qed.

Lemma chain_heel_absent (p : Profile) (s c t : Q) :
  shore p = Returned (Some s) -> crest p s = Returned (Some c) ->
  toe p s c = Returned (Some t) -> heel p c = Returned None ->
  chain p = ([Searched Shore; Searched Crest; Searched Toe; Searched Heel;
              Printed Heel], Returned None).
Proof. intros H1 H2 H3 H4. run_chain. rewrite H1, H2, H3, H4. reflexivity. Qed.

Lemma chain_complete (p : Profile) (log : list event) (f : FeatureSet) :
  chain p = (log, Returned (Some f)) ->
  shore p = Returned (Some (shore_x f)) /\
  crest p (shore_x f) = Returned (Some (crest_x f)) /\
  toe p (shore_x f) (crest_x f) = Returned (Some (toe_x f)) /\
  heel p (crest_x f) = Returned (Some (heel_x f)) /\
  loc_labels p [shore_x f; toe_x f; crest_x f; heel_x f] =
    Returned [shore_y f; toe_y f; crest_y f; heel_y f] /\
  log = [Searched Shore; Searched Crest; Searched Toe; Searched Heel].
Proof.
  run_chain.
  destruct (shore p) as [[s|]|e] eqn:H1; simpl; try discriminate.
  destruct (crest p s) as [[c|]|e] eqn:H2; simpl; try discriminate.
  destruct (toe p s c) as [[t|]|e] eqn:H3; simpl; try discriminate.
  destruct (heel p c) as [[h|]|e] eqn:H4; simpl; try discriminate.
  destruct (loc_labels p [s; t; c; h]) as [ys|e] eqn:H5; simpl; try discriminate.
  destruct ys as [|y1 [|y2 [|y3 [|y4 [|y5 ys]]]]]; simpl; try discriminate.
  intros [= <- <-]. simpl. auto 10.
Qed.

Lemma chain_absent (p : Profile) (log : list event) :
  chain p = (log, Returned None) ->
  shore p = Returned None \/
  exists s, shore p = Returned (Some s) /\
    (crest p s = Returned None \/
     exists c, crest p s = Returned (Some c) /\
       (toe p s c = Returned None \/
        exists t, toe p s c = Returned (Some t) /\ heel p c = Returned None)).
Proof.
  run_chain.
  destruct (shore p) as [[s|]|e] eqn:H1; simpl; try discriminate; [|auto].
  intros H. right. exists s. split; [reflexivity|]. revert H.
  destruct (crest p s) as [[c|]|e] eqn:H2; simpl; try discriminate; [|auto].
  intros H. right. exists c. split; [reflexivity|]. revert H.
  destruct (toe p s c) as [[t|]|e] eqn:H3; simpl; try discriminate; [|auto].
  intros H. right. exists t. split; [reflexivity|]. revert H.
  destruct (heel p c) as [[h|]|e] eqn:H4; simpl; try discriminate; [|auto].
  destruct (loc_labels p [s; t; c; h]) as [ys|e] eqn:H5; simpl; try discriminate.
  destruct ys as [|y1 [|y2 [|y3 [|y4 [|y5 ys]]]]]; simpl; discriminate.
Qed.

(** C5.  Whatever the four searches compute: when one of them finds
    nothing, the result is [None] as a whole, the searches after it are
    not called (the log ends with the failed search and its message), and
    no coordinate is returned; a result [None] comes from a search that
    found nothing; and a result that is not [None] carries the eight
    coordinates, the four [x] being what the four searches returned and
    the four [y] the elevations at these labels. *)
Theorem identify_features_all_or_nothing (p : Profile) :
  (shore p = Returned None ->
   chain p = ([Searched Shore; Printed Shore], Returned None)) /\
  (forall s, shore p = Returned (Some s) -> crest p s = Returned None ->
   chain p = ([Searched Shore; Searched Crest; Printed Crest], Returned None)) /\
  (forall s c, shore p = Returned (Some s) -> crest p s = Returned (Some c) ->
   toe p s c = Returned None ->
   chain p = ([Searched Shore; Searched Crest; Searched Toe; Printed Toe],
              Returned None)) /\
  (forall s c t, shore p = Returned (Some s) -> crest p s = Returned (Some c) ->
   toe p s c = Returned (Some t) -> heel p c = Returned None ->
   chain p = ([Searched Shore; Searched Crest; Searched Toe; Searched Heel;
               Printed Heel], Returned None)) /\
  (forall log, chain p = (log, Returned None) ->
   shore p = Returned None \/
   exists s, shore p = Returned (Some s) /\
     (crest p s = Returned None \/
      exists c, crest p s = Returned (Some c) /\
        (toe p s c = Returned None \/
         exists t, toe p s c = Returned (Some t) /\ heel p c = Returned None))) /\
  (forall log f, chain p = (log, Returned (Some f)) ->
   length (fields f) = 8%nat /\
   shore p = Returned (Some (shore_x f)) /\
   crest p (shore_x f) = Returned (Some (crest_x f)) /\
   toe p (shore_x f) (crest_x f) = Returned (Some (toe_x f)) /\
   heel p (crest_x f) = Returned (Some (heel_x f)) /\
   loc_labels p [shore_x f; toe_x f; crest_x f; heel_x f] =
     Returned [shore_y f; toe_y f; crest_y f; heel_y f] /\
   log = [Searched Shore; Searched Crest; Searched Toe; Searched Heel]).
Proof.
  split; [apply chain_shore_absent|].
  split; [apply chain_crest_absent|].
  split; [apply chain_toe_absent|].
  split; [apply chain_heel_absent|].
  split; [apply chain_absent|].
  intros log f H. split; [reflexivity|]. eapply chain_complete; eauto.
Qed.

End ChainProofs.

(** A chain that completes: four searches that find 0, 7, 3 and 9. *)
Example chain_complete_example :
  identify_features_with
    (fun _ => Returned (Some 0)) (fun _ _ => Returned (Some 7))
    (fun _ _ _ => Returned (Some 3)) (fun _ _ => Returned (Some 9))
    [mkSample 0 1; mkSample 3 2; mkSample 7 5; mkSample 9 1]
  = ([Searched Shore; Searched Crest; Searched Toe; Searched Heel],
     Returned (Some (mkFeatureSet 0 1 3 2 7 5 9 1))).
Proof. reflexivity. Qed.


(** ** Volumes *)

Lemma trapz_cons2 (a b xa xb : Q) (ys xs : list Q) :
  trapz (a :: b :: ys) (xa :: xb :: xs) =
    (xb - xa) * (b + a) / 2 + trapz (b :: ys) (xb :: xs).
Proof.
  unfold trapz, diff. simpl. rewrite Nat.sub_0_r. reflexivity.
Qed.

Lemma trapz_single (a xa : Q) : trapz [a] [xa] = 0.
Proof. reflexivity. Qed.

(** numpy's vectorised formula is the sum of the trapezoids between
    consecutive samples. *)
Lemma trapz_trapezoid_sum (c : Q) (subset : Profile) :
  trapz (map (fun v => v - c) (yvals subset)) (index subset)
  == trapezoid_sum (fun s => y s - c) subset.
Proof.
  induction subset as [|a [|b l] IH].
  - reflexivity.
  - reflexivity.
  - change (trapezoid_sum (fun s => y s - c) (a :: b :: l))
      with ((x b - x a) * ((y a - c) + (y b - c)) / 2
            + trapezoid_sum (fun s => y s - c) (b :: l)).
    rewrite <- IH. unfold yvals, index. simpl map. rewrite trapz_cons2.
    apply Qplus_comp; [|reflexivity]. field.
Qed.

(** C8.  [measure_volume] is the trapezoidal sum, over the samples of the
    closed sub-range [[start_x, end_x]], of the elevation minus the base
    elevation, times the spacing; on the flat two-point profile with
    spacing 1 it is 0 for the base elevation 5 and 50 for the base
    elevation 0. *)
Theorem measure_volume_trapezoid :
  (forall (p : Profile) (start_x end_x spacing base : Q),
     measure_volume p start_x end_x spacing base
     == trapezoid_sum (fun s => y s - base) (loc_range start_x end_x p) * spacing) /\
  (forall (p : Profile) (start_x end_x : Q) (s : Sample),
     In s (loc_range start_x end_x p) <-> In s p /\ start_x <= x s /\ x s <= end_x) /\
  measure_volume flat_profile 0 10 1 5 == 0 /\
  measure_volume flat_profile 0 10 1 0 == 50.
Proof.
  split; [|split; [|split]].
  - intros p a b s c. unfold measure_volume. simpl.
    rewrite trapz_trapezoid_sum. reflexivity.
  - intros p a b s. apply loc_range_In.
  - vm_compute. reflexivity.
  - vm_compute. reflexivity.
Qed.

Lemma loc_range_reversed (a b : Q) (p : Profile) :
  a < b -> loc_range b a p = [].
Proof.
  intros Hab. unfold loc_range. apply filter_nil. intros s _.
  apply andb_false_iff.
  destruct (Qle_bool b (x s)) eqn:E1; [|auto]. right. qbool. lra.
Qed.

(** C10, as the program has it.  With the bounds in reverse order the
    closed sub-range is empty and the volume is 0, whatever the base
    elevation and the spacing; it is the opposite of the volume over
    [[a, b]] exactly when that volume is 0. *)
Theorem measure_volume_reversed_bounds (p : Profile) (a b spacing base : Q) :
  a < b ->
  measure_volume p b a spacing base == 0 /\
  (measure_volume p a b spacing base == - measure_volume p b a spacing base
   <-> measure_volume p a b spacing base == 0).
Proof.
  intros Hab.
  assert (measure_volume p b a spacing base == 0) as H0.
  { unfold measure_volume. rewrite loc_range_reversed by trivial. reflexivity. }
  split; trivial. rewrite H0. split; intros H; rewrite H; reflexivity.
Qed.

Lemma measure_volume_reversed_bounds_witness :
  measure_volume flat_profile 10 0 1 0 == 0 /\
  (measure_volume flat_profile 0 10 1 0 == - measure_volume flat_profile 10 0 1 0
   <-> measure_volume flat_profile 0 10 1 0 == 0).
Proof. apply (measure_volume_reversed_bounds flat_profile 0 10 1 0). reflexivity. Defined.

(** C10 as stated fails: over [[0, 10]] the flat profile has volume 50, over
    [[10, 0]] it has volume 0. *)
Lemma measure_volume_not_antisymmetric :
  ~ (forall (p : Profile) (a b base spacing : Q),
       measure_volume p a b spacing base
       == -(1) * measure_volume p b a spacing base).
Proof.
  intros H. specialize (H flat_profile 0 10 0 1). vm_compute in H. discriminate.
Qed.

(** ** The filter of the metrics *)

(** C7, as the program has it.  A row is retained exactly when it is a row
    of the table, satisfies every range predicate and has no missing value
    ([NaN]) in any column; an infinite value removes a row only through a
    range predicate. *)
Theorem filtered_beach_data_retains (beach_data : list BeachData) (r : BeachData) :
  In r (filtered_beach_data beach_data) <->
  In r beach_data /\
  (flt (dune_vol r) (Fin 300) = true /\ flt (beach_vol r) (Fin 500) = true /\
   fgt (dune_height r) (Fin 1) = true /\ flt (dune_height r) (Fin 10) = true /\
   fgt (dune_length r) (Fin 5) = true /\ flt (dune_length r) (Fin 25) = true /\
   flt (dune_crest r) (Fin 20) = true /\
   fgt (beach_width r) (Fin 10) = true /\ flt (beach_width r) (Fin 60) = true) /\
  Forall (fun c => c <> NaN) (columns r).
Proof.
  unfold filtered_beach_data, dropna. rewrite !filter_In. unfold in_ranges.
  rewrite !andb_true_iff, negb_true_iff.
  assert (existsb is_nan (columns r) = false <-> Forall (fun c => c <> NaN) (columns r)) as ->.
  { rewrite Forall_forall. split.
    - intros E c Hc ->. 
      assert (existsb is_nan (columns r) = true); [|congruence].
      apply existsb_exists. exists NaN. split; [apply list_elem_of_In; trivial | reflexivity].
    - intros H. destruct (existsb is_nan (columns r)) eqn:E; trivial.
      apply existsb_exists in E as (c & Hc & Hn). destruct c; try discriminate.
      apply list_elem_of_In, H in Hc. congruence. }
  tauto.
Qed.

(** C7 as stated fails: a row inside every range whose ratio of volumes is
    infinite is retained. *)
Lemma filtered_beach_data_keeps_infinite :
  ~ (forall (beach_data : list BeachData) (r : BeachData),
       In r (filtered_beach_data beach_data) <->
       In r beach_data /\ in_ranges r = true /\
       forallb is_finite (columns r) = true).
Proof.
  intros H. specialize (H [infinite_ratio_row] infinite_ratio_row).
  assert (In infinite_ratio_row (filtered_beach_data [infinite_ratio_row])) as Hin
    by (left; reflexivity).
  apply H in Hin as (_ & _ & Hfin). vm_compute in Hfin. discriminate.
Qed.

(** The two rows of the specification. *)
Example filtered_beach_data_examples :
  filtered_beach_data [low_dune_row; plausible_row] = [plausible_row].
Proof. reflexivity. Qed.

(** ** The spacing between profiles *)

Lemma zip_with4_lookup {A B C D E} (f : A -> B -> C -> D -> E)
    (la : list A) (lb : list B) (lc : list C) (ld : list D) (i : nat) :
  zip_with4 f la lb lc ld !! i =
    (a ← la !! i; b ← lb !! i; c ← lc !! i; d ← ld !! i; Some (f a b c d)).
Proof.
  revert lb lc ld i. induction la as [|a la IH]; intros lb lc ld i.
  - reflexivity.
  - destruct lb as [|b lb]; [simpl; destruct i; simpl; [|destruct (la !! i)]; reflexivity|].
    destruct lc as [|c lc].
    { simpl. destruct i; simpl; [reflexivity|].
      destruct (la !! i); simpl; [|reflexivity]. destruct (lb !! i); reflexivity. }
    destruct ld as [|d ld].
    { simpl. destruct i; simpl; [reflexivity|].
      destruct (la !! i); simpl; [|reflexivity].
      destruct (lb !! i); simpl; [|reflexivity]. destruct (lc !! i); reflexivity. }
    destruct i; simpl; [reflexivity | apply IH].
Qed.

(** C9, as the program has it.  On a dataset of at least two rows,
    [measure_feature_volumes] takes for spacing the [x] of the second row
    minus the [x] of the first row, once, and every volume it returns is
    [measure_volume] of the corresponding profile with that spacing; a
    dataset of fewer than two rows raises an error. *)
Theorem measure_feature_volumes_spacing (r0 r1 : Row) (rest : list Row)
    (start_values end_values base_elevations : list Q) :
  let xy_data := r0 :: r1 :: rest in
  profile_spacing xy_data = Returned (row_x r1 - row_x r0) /\
  (exists volumes,
     measure_feature_volumes xy_data start_values end_values base_elevations
       = Returned volumes /\
     forall i, volumes !! i =
       (g ← groupby xy_data !! i; start_x ← start_values !! i;
        end_x ← end_values !! i; base_y ← base_elevations !! i;
        Some (measure_volume (snd g) start_x end_x (row_x r1 - row_x r0) base_y))) /\
  profile_spacing [r0] = Raised IndexError /\
  profile_spacing [] = Raised IndexError.
Proof.
  simpl. split; [reflexivity|]. split; [|split; reflexivity].
  eexists. split; [reflexivity|]. intros i. apply zip_with4_lookup.
Qed.

(** C9 as stated fails: the two profile lines both start at distance 0, so
    the gap between their x-origins is 0, and the program's spacing is 1,
    the distance between the first two samples of the first line. *)
Lemma profile_spacing_not_origin_gap :
  ~ (forall (xy_data : list Row) (gap : Q),
       spacing_by_spec xy_data = Some gap ->
       exists s, profile_spacing xy_data = Returned s /\ s == gap).
Proof.
  intros H. destruct (H two_lines (0 - 0) eq_refl) as (s & Hs & Heq).
  vm_compute in Hs. injection Hs as <-. vm_compute in Heq. discriminate.
Qed.

(** ** Where the landmarks lie *)

Lemma idxmax_In (idx : list Q) (b : list bool) (l : Q) :
  idxmax idx b = Returned l -> In l idx.
Proof.
  unfold idxmax. destruct (idx !! first_true b) as [l'|] eqn:E; [|discriminate].
  intros [= <-]. apply list_elem_of_In, list_elem_of_lookup. eauto.
Qed.

Lemma idxmin_In (idx s : list Q) (l : Q) :
  idxmin idx s = Returned l -> In l idx.
Proof.
  unfold idxmin. destruct (argmin s) as [k|]; simpl; [|discriminate].
  destruct (idx !! k) as [l'|] eqn:E; [|discriminate].
  intros [= <-]. apply list_elem_of_In, list_elem_of_lookup. eauto.
Qed.

Lemma In_index (p : Profile) (v : Q) :
  In v (index p) <-> exists s, In s p /\ x s = v.
Proof.
  unfold index. rewrite in_map_iff. split; intros (s & H1 & H2); eauto.
Qed.

Lemma identify_shore_label (p : Profile) (s : Q) :
  identify_shore p = Returned (Some s) -> In s (index p).
Proof.
  unfold identify_shore. simpl.
  destruct (idxmax _ _) as [l|e] eqn:E; simpl; [|discriminate].
  destruct (getitem _ _ _) as [[]|e']; simpl; try discriminate.
  intros [= <-]. eapply idxmax_In; eauto.
Qed.

Lemma identify_crest_label (p : Profile) (s c : Q) :
  identify_crest p s = Returned (Some c) -> In c (index p) /\ s <= c.
Proof.
  unfold identify_crest. simpl.
  destruct (idxmax _ _) as [l|e] eqn:E; simpl; [|discriminate].
  destruct (getitem _ _ _) as [[]|e']; simpl; try discriminate.
  intros [= <-]. apply idxmax_In, In_index in E as (smp & Hin & <-).
  apply loc_from_In in Hin as [Hin Hle]. split; trivial.
  apply In_index. eauto.
Qed.

Lemma identify_toe_label polyfit (p : Profile) (s c t : Q) :
  identify_toe polyfit p s c = Returned (Some t) ->
  In t (index p) /\ s < t /\ t < c.
Proof.
  unfold identify_toe. destruct (loc_range s c p) as [|s0 sub] eqn:Esub; [discriminate|].
  rewrite <- Esub. destruct (idxmin _ _) as [l|e] eqn:E; simpl; [|discriminate].
  destruct (Qeq_bool l s || Qeq_bool l c) eqn:Eb; simpl; [discriminate|].
  intros [= <-]. apply orb_false_iff in Eb as [E1 E2]. qbool.
  apply idxmin_In, In_index in E as (smp & Hin & <-).
  apply loc_range_In in Hin as (Hin & H1 & H2).
  split; [apply In_index; eauto|].
  split.
  - destruct (Qlt_le_dec s (x smp)); trivial. exfalso. apply E1. lra.
  - destruct (Qlt_le_dec (x smp) c); trivial. exfalso. apply E2. lra.
Qed.

Lemma in_x_range_In (p : Profile) (v : Q) :
  strictly_increasing (index p) = true -> In v (index p) -> in_x_range p v.
Proof.
  intros Hs Hin. apply list_elem_of_In, list_elem_of_lookup in Hin as [i Hi].
  pose proof (lookup_lt_Some _ _ _ Hi) as Hlt. rewrite index_length in Hlt.
  destruct (lookup_lt_is_Some_2 p 0) as [a Ha]; [lia|].
  destruct (lookup_lt_is_Some_2 p (length p - 1)) as [b Hb]; [lia|].
  exists a, b. split; [rewrite head_lookup; trivial|].
  split; [rewrite last_lookup; replace (pred (length p)) with (length p - 1)%nat by lia; trivial|].
  assert (index p !! 0%nat = Some (x a)) as Ha' by (unfold index; rewrite lookup_map, Ha; trivial).
  assert (index p !! (length p - 1)%nat = Some (x b)) as Hb'
    by (unfold index; rewrite lookup_map, Hb; trivial).
  split.
  - destruct (decide (i = 0%nat)) as [->|Hne].
    + assert (x a = v) as -> by congruence. lra.
    + apply Qlt_le_weak. eapply (increasing_lookup _ 0 i); eauto. lia.
  - destruct (decide (i = (length p - 1)%nat)) as [->|Hne].
    + assert (x b = v) as -> by congruence. lra.
    + apply Qlt_le_weak. eapply (increasing_lookup _ i (length p - 1)); eauto. lia.
Qed.

(** Each of the first three searches returns a sampled distance of the
    profile, between the first and the last one; the crest is not before
    the shore it was searched from, and the toe is strictly between shore
    and crest. *)
Lemma landmarks_in_range polyfit (p : Profile) :
  strictly_increasing (index p) = true ->
  (forall s, identify_shore p = Returned (Some s) ->
     In s (index p) /\ in_x_range p s) /\
  (forall s c, identify_crest p s = Returned (Some c) ->
     In c (index p) /\ in_x_range p c /\ s <= c) /\
  (forall s c t, identify_toe polyfit p s c = Returned (Some t) ->
     In t (index p) /\ in_x_range p t /\ s < t /\ t < c).
Proof.
  intros Hs. split; [|split].
  - intros s H. apply identify_shore_label in H.
    split; [trivial | apply in_x_range_In; trivial].
  - intros s c H. apply identify_crest_label in H as [H1 H2].
    split; [trivial | split; [apply in_x_range_In; trivial | trivial]].
  - intros s c t H. apply identify_toe_label in H as (H1 & H2 & H3).
    split; [trivial | split; [apply in_x_range_In; trivial | auto]].
Qed.

(** ** The shore search *)

Lemma shift_1_lookup (l : list Q) (j : nat) :
  (j < length l)%nat ->
  shift 1 (map Fin l) !! j =
    Some (match j with O => NaN | S j' => of_option (l !! j') end).
Proof.
  intros Hj. rewrite shift_lookup by (rewrite length_map; trivial). f_equal.
  destruct j as [|j]; [reflexivity|].
  replace (Z.of_nat (S j) - 1)%Z with (Z.of_nat j) by lia.
  rewrite cell_at_nat, lookup_map. destruct (l !! j); reflexivity.
Qed.

Lemma xcol_index (p : Profile) : xcol p = map Fin (index p).
Proof. unfold xcol, index. rewrite map_map. reflexivity. Qed.

(** On an increasing index the slope Series holds the local slopes, and
    [NaN] at the first position. *)
Lemma shore_slope_lookup (p : Profile) (j : nat) :
  strictly_increasing (index p) = true -> (j < length p)%nat ->
  shore_slope p !! j = Some (of_option (slope_at p j)).
Proof.
  intros Hs Hj. destruct (lookup_lt_is_Some_2 p j Hj) as [b Hb].
  unfold shore_slope, sdiv, ssub. rewrite !lookup_zip_with.
  rewrite ycol_yvals, xcol_index.
  rewrite !shift_1_lookup by (rewrite ?yvals_length, ?index_length; trivial).
  unfold yvals, index. rewrite !lookup_map, Hb. simpl.
  destruct j as [|j]; [reflexivity|].
  destruct (lookup_lt_is_Some_2 p j) as [a Ha]; [lia|].
  rewrite !lookup_map, Ha. unfold slope_at. rewrite Ha, Hb. simpl. f_equal.
  assert (x a < x b) as Hlt.
  { apply (increasing_lookup (index p) j (S j)); trivial; [lia| |];
      unfold index; rewrite lookup_map; [rewrite Ha | rewrite Hb]; reflexivity. }
  destruct (Qeq_bool (x b - x a) 0) eqn:E; [qbool; lra | reflexivity].
Qed.

Lemma foldl_fmin_NaN (l : list float) : foldl fmin NaN l = NaN.
Proof. induction l as [|c l IH]; simpl; trivial. Qed.

Lemma foldl_fmin_options (g : nat -> option Q) (l : list nat) (a : Q) :
  foldl fmin (Fin a) (map (fun j => of_option (g j)) l) =
    of_option (k ← mapM g l; Some (foldl Qmin a k)).
Proof.
  revert a. induction l as [|j l IH]; intros a; [reflexivity|].
  change (foldl fmin (fmin (Fin a) (of_option (g j)))
            (map (fun j => of_option (g j)) l)
          = of_option (k ← (b ← g j; k ← mapM g l; mret (b :: k));
                       Some (foldl Qmin a k))).
  destruct (g j) as [b|].
  - change (of_option (Some b)) with (Fin b). rewrite fmin_Fin, IH.
    destruct (mapM g l); reflexivity.
  - apply foldl_fmin_NaN.
Qed.

Lemma reduce_fmin_options (g : nat -> option Q) (l : list nat) :
  reduce fmin (map (fun j => of_option (g j)) l) = of_option (mapM g l ≫= minimum).
Proof.
  destruct l as [|j l]; [reflexivity|]. simpl. destruct (g j) as [a|]; simpl.
  - rewrite foldl_fmin_options. destruct (mapM g l); reflexivity.
  - apply foldl_fmin_NaN.
Qed.

(** The window of the 5 slopes from position [i] on. *)
Lemma slope_window_lookup (p : Profile) (i : nat) :
  strictly_increasing (index p) = true -> (i < length p)%nat ->
  sge_scalar (shift (-4) (rolling_min 5 (shore_slope p))) 0 !! i =
    Some (match mapM (slope_at p) (seq i 5) ≫= minimum with
          | Some m => Qle_bool 0 m
          | None => false
          end).
Proof.
  intros Hs Hi.
  assert (length (shore_slope p) = length p) as Hlen.
  { unfold shore_slope, sdiv, ssub.
    rewrite !length_zip_with, !shift_length. unfold ycol, xcol.
    rewrite !length_map. lia. }
  unfold sge_scalar, rolling_min. rewrite lookup_map.
  rewrite shift_lookup by (rewrite rolling_length; lia).
  unfold fmap, option_fmap, option_map. f_equal.
  replace (Z.of_nat i - -4)%Z with (Z.of_nat (i + 4)) by lia.
  rewrite cell_at_nat. destruct (decide (i + 4 < length p)%nat) as [Hlt|Hge].
  - rewrite rolling_lookup by lia. unfold default.
    destruct (decide (5 <= S (i + 4))%nat); [|lia].
    unfold window. replace (S (i + 4) - 5)%nat with i by lia.
    assert (take 5 (drop i (shore_slope p))
            = map (fun j => of_option (slope_at p j)) (seq i 5)) as ->.
    { apply list_eq. intros k. rewrite lookup_take, lookup_drop, lookup_map.
      destruct (decide (k < 5)%nat) as [Hk|Hk].
      - rewrite lookup_seq_lt by trivial. simpl.
        apply shore_slope_lookup; trivial. lia.
      - rewrite lookup_seq_ge by lia. reflexivity. }
    rewrite reduce_fmin_options. destruct (_ ≫= _); reflexivity.
  - rewrite (proj2 (lookup_ge_None _ _)) by (rewrite rolling_length; lia).
    unfold default.
    assert (mapM (slope_at p) (seq i 5) = None) as ->; [|reflexivity].
    apply mapM_None_2, Exists_exists. exists (i + 4)%nat. split.
    + apply list_elem_of_lookup. exists 4%nat. apply lookup_seq_lt. lia.
    + replace (i + 4)%nat with (S (i + 3)) by lia. unfold slope_at.
      rewrite (proj2 (lookup_ge_None p (S (i + 3)))) by lia.
      destruct (p !! _); reflexivity.
Qed.

Lemma shore_filter_lookup (p : Profile) (i : nat) :
  strictly_increasing (index p) = true -> (i < length p)%nat ->
  shore_filter p !! i = Some (shore_qualifies p i).
Proof.
  intros Hs Hi. destruct (lookup_lt_is_Some_2 p i Hi) as [s Hsi].
  assert (yvals p !! i = Some (y s)) as Hy
    by (unfold yvals; rewrite lookup_map, Hsi; reflexivity).
  pose proof (new_running_max_lookup (yvals p) i (y s) Hy) as Hb.
  pose proof (slope_window_lookup p i Hs Hi) as Hc.
  unfold shore_filter, sand, shore_qualifies. rewrite Hsi, !lookup_zip_with.
  rewrite Hc. rewrite ycol_yvals, Hb. unfold sgt_scalar.
  rewrite !lookup_map, Hy. simpl. unfold yvals. rewrite take_map. reflexivity.
Qed.

Lemma shore_filter_length (p : Profile) : length (shore_filter p) = length p.
Proof.
  unfold shore_filter, sand, sgt, sgt_scalar, sge_scalar, shore_slope, sdiv, ssub,
    rolling_min, expanding_max, ycol, xcol.
  repeat first [rewrite length_zip_with | rewrite length_map | rewrite shift_length
               | rewrite rolling_length | rewrite length_imap].
  lia.
Qed.

(** What [identify_shore] returns on a non-empty profile with an increasing
    index: nothing when some position qualifies, and the first distance of
    the profile when no position does.  The test [if filtered[x_coord]] is
    the opposite of the one in [identify_crest]. *)
Lemma identify_shore_result (p : Profile) :
  strictly_increasing (index p) = true -> p <> [] ->
  identify_shore p =
    Returned (match first_qualifying (shore_qualifies p) (length p) with
              | Some _ => None
              | None => head (index p)
              end).
Proof.
  intros Hs Hne.
  change (identify_shore p) with
    (x_coord ← idxmax (index p) (shore_filter p);
     found ← getitem (index p) (shore_filter p) x_coord;
     if (found : bool) then mret None else mret (Some x_coord)).
  destruct (idxmax_getitem (index p) (shore_filter p)) as (l & Hl & -> & Hg); trivial.
  { rewrite shore_filter_length, index_length. trivial. }
  { destruct p; [congruence | discriminate]. }
  simpl. rewrite Hg. simpl.
  rewrite <- (shore_filter_length p), (first_qualifying_first_true (shore_qualifies p)).
  - destruct (existsb id (shore_filter p)) eqn:E; simpl; trivial.
    destruct (first_true_none _ E) as [H0 _]. rewrite H0 in Hl.
    rewrite head_lookup, Hl. reflexivity.
  - intros i Hi. apply shore_filter_lookup; trivial.
    rewrite shore_filter_length in Hi. trivial.
Qed.

(** ** The program on the example profiles *)

(** The searches on the dune profile, with the least-squares cubic: the
    shore search finds no qualifying position and returns the first
    distance, the crest is at 7, the toe at 2, the heel search finds
    nothing and the chain gives up. *)
Example dune_profile_searches :
  identify_shore dune_profile = Returned (Some 0) /\
  identify_crest dune_profile 0 = Returned (Some 7) /\
  identify_toe lstsq_cubic dune_profile 0 7 = Returned (Some 2) /\
  identify_features lstsq_cubic dune_profile =
    ([Searched Shore; Searched Crest; Searched Toe; Searched Heel; Printed Heel],
     Returned None).
Proof. vm_compute. auto. Qed.

(** On the sub-range of the dune profile the cubic of [lstsq_cubic] solves
    the normal equations: its residuals are orthogonal to 1, x, x^2, x^3. *)
Example lstsq_cubic_normal_equations :
  let subset := loc_range 0 7 dune_profile in
  Forall (fun k => power_sum k (index subset) (differences lstsq_cubic subset) == 0)
         [0; 1; 2; 3]%nat.
Proof. repeat constructor. Qed.

(** C1, at the scenario of the specification and at a sinking profile.  In
    the scenario the first qualifying position is position 2, at distance 2,
    and [identify_shore] returns [None]; on the sinking profile no position
    qualifies and [identify_shore] returns the distance 0. *)
Theorem identify_shore_on_scenario :
  first_qualifying (shore_qualifies shore_scenario) (length shore_scenario)
    = Some 2%nat /\
  index shore_scenario !! 2%nat = Some 2 /\
  identify_shore shore_scenario = Returned None /\
  first_qualifying (shore_qualifies sinking_profile) (length sinking_profile)
    = None /\
  identify_shore sinking_profile = Returned (Some 0).
Proof. vm_compute. auto. Qed.

(** C2, at the dune profile.  From the crest at distance 7 on, no position
    is excluded by the three conditions and the lowest position is at
    distance 12; [identify_heel] returns [None]. *)
Theorem identify_heel_on_dune :
  identify_crest dune_profile 0 = Returned (Some 7) /\
  (forall i, heel_excluded (yvals (loc_from 7 dune_profile)) i = false) /\
  heel_by_spec dune_profile 7 = Some 12 /\
  identify_heel dune_profile 7 = Returned None.
Proof.
  split; [vm_compute; reflexivity|]. split; [|split; vm_compute; reflexivity].
  intros i. destruct (decide (i < 23)%nat) as [Hi|Hi].
  - do 23 (destruct i as [|i]; [vm_compute; reflexivity|]). lia.
  - unfold heel_excluded. rewrite (proj2 (lookup_ge_None _ _)); trivial.
    vm_compute. lia.
Qed.

Lemma identify_crest_first_qualifying_witness :
  strictly_increasing (index dune_profile) = true /\
  loc_from 0 dune_profile <> [] /\
  let subset := loc_from 0 dune_profile in
  let ys := yvals subset in
  (forall a, In a subset <-> In a dune_profile /\ 0 <= x a) /\
  (exists r, identify_crest dune_profile 0 = Returned r) /\
  (forall c, identify_crest dune_profile 0 = Returned (Some c) <->
     exists i, index subset !! i = Some c /\ crest_qualifies ys i = true /\
               forall j, (j < i)%nat -> crest_qualifies ys j = false) /\
  (identify_crest dune_profile 0 = Returned None <->
     forall i, crest_qualifies ys i = false) /\
  (forall i, (length ys <= i + 20)%nat -> crest_qualifies ys i = false) /\
  crest_qualifies ys 0 = false.
Proof.
  split; [reflexivity|]. split; [discriminate|].
  apply (identify_crest_first_qualifying dune_profile 0); [reflexivity | discriminate].
Defined.



(** * Further properties of the program *)

(** ** When the searches resolve and when they raise *)

Lemma shore_qualifies_out_of_range (p : Profile) (i : nat) :
  (length p <= i)%nat -> shore_qualifies p i = false.
Proof.
  intros Hi. unfold shore_qualifies.
  rewrite (proj2 (lookup_ge_None p i)); trivial.
Qed.

Lemma head_index_nonempty (p : Profile) :
  p <> [] -> exists l, head (index p) = Some l /\ In l (index p).
Proof.
  destruct p as [|a p]; [congruence|]. intros _. exists (x a).
  split; [reflexivity | left; reflexivity].
Qed.

(** X1.  On a non-empty profile with an increasing index, [identify_shore]
    returns [None] exactly when some position satisfies the three shore
    conditions, and it returns a distance exactly when no position does;
    that distance is the first one of the profile. *)
Theorem identify_shore_inverted (p : Profile) :
  strictly_increasing (index p) = true -> p <> [] ->
  (identify_shore p = Returned None <-> exists i, shore_qualifies p i = true) /\
  (forall s, identify_shore p = Returned (Some s) <->
     (forall i, shore_qualifies p i = false) /\ head (index p) = Some s).
Proof.
  intros Hs Hne. rewrite (identify_shore_result p Hs Hne).
  destruct (head_index_nonempty p Hne) as (l & Hl & _).
  destruct (first_qualifying (shore_qualifies p) (length p)) as [i|] eqn:E.
  - apply first_qualifying_Some in E as (Hi & Hq & _). split.
    + split; [eauto | reflexivity].
    + intros s. split; [discriminate|]. intros [Hall _].
      rewrite Hall in Hq. discriminate.
  - assert (forall i, shore_qualifies p i = false) as Hall.
    { intros i. destruct (decide (i < length p)%nat).
      - eapply first_qualifying_None in E; eauto.
      - apply shore_qualifies_out_of_range. lia. }
    rewrite Hl. split.
    + split; [discriminate|]. intros [i Hi]. rewrite Hall in Hi. discriminate.
    + intros s. split.
      * intros [= <-]. auto.
      * intros [_ [= <-]]. reflexivity.
Qed.

Lemma identify_shore_inverted_witness :
  strictly_increasing (index shore_scenario) = true /\ shore_scenario <> [] /\
  (identify_shore shore_scenario = Returned None <->
     exists i, shore_qualifies shore_scenario i = true).
Proof.
  split; [reflexivity|]. split; [discriminate|].
  apply (identify_shore_inverted shore_scenario); [reflexivity | discriminate].
Defined.

(** X2.  With an increasing index, [identify_shore] raises exactly on the empty
    profile, and the exception is the [ValueError] of [idxmax]. *)
Theorem identify_shore_raises (p : Profile) (e : exn) :
  strictly_increasing (index p) = true ->
  (identify_shore p = Raised e <-> p = [] /\ e = ValueError).
Proof.
  intros Hs. destruct p as [|a p].
  - split; [intros [= <-]; auto | intros [_ ->]; reflexivity].
  - rewrite (identify_shore_result (a :: p) Hs) by discriminate.
    split; [discriminate | intros [H _]; discriminate].
Qed.

Lemma identify_shore_raises_witness :
  strictly_increasing (index dune_profile) = true /\
  (identify_shore dune_profile = Raised ValueError <->
     dune_profile = [] /\ ValueError = ValueError).
Proof.
  split; [reflexivity|].
  apply (identify_shore_raises dune_profile ValueError). reflexivity.
Defined.

(** X3.  [identify_heel] returns [None] for every profile and every crest: its
    second condition compares an elevation with the maximum of a window
    that contains it, so no position is excluded, and the function gives up
    when no position is excluded.  It never returns a distance and never
    raises. *)
Theorem identify_heel_never_resolves (profile_df : Profile) (crest_x : Q) :
  identify_heel profile_df crest_x = Returned None /\
  forall i b,
    sgt (ycol (loc_from crest_x profile_df))
        (rolling_max 10 (ycol (loc_from crest_x profile_df))) !! i = Some b ->
    b = false.
Proof.
  split; [apply identify_heel_absent|].
  intros i b. apply sgt_rolling_max. lia.
Qed.

(** A position that qualifies as crest has an earlier position and 20
    later positions in the sub-sequence. *)
Lemma crest_qualifies_room (ys : list Q) (i : nat) :
  crest_qualifies ys i = true -> (1 <= i)%nat /\ (i + 20 < length ys)%nat.
Proof.
  unfold crest_qualifies. destruct (ys !! i) as [yi|]; [|discriminate].
  rewrite !andb_true_iff. intros [[Ha Hb] _]. split.
  - destruct i as [|i]; [|lia]. rewrite take_0 in Ha. discriminate.
  - unfold next_values in Hb.
    destruct (decide (i + 20 < length ys)%nat); [trivial | discriminate].
Qed.

Lemma identify_crest_empty (p : Profile) (s : Q) :
  loc_from s p = [] -> identify_crest p s = Raised ValueError.
Proof. intros E. unfold identify_crest. rewrite E. reflexivity. Qed.

Lemma loc_from_nil (a : Q) (p : Profile) :
  loc_from a p = [] <-> forall s, In s p -> x s < a.
Proof.
  split.
  - intros E s Hs. destruct (Qlt_le_dec (x s) a) as [|Hle]; trivial.
    assert (In s (loc_from a p)) as Hin by (apply loc_from_In; auto).
    rewrite E in Hin. destruct Hin.
  - intros H. apply filter_nil. intros s Hs. apply Qle_bool_gt. auto.
Qed.

(** X5.  With an increasing index, a crest that is found lies strictly beyond
    the shore it was searched from, is not the first sample of the
    sub-sequence and is followed by at least 20 samples: the last 20
    samples of a profile are never a crest. *)
Theorem identify_crest_needs_room (p : Profile) (s c : Q) :
  strictly_increasing (index p) = true ->
  identify_crest p s = Returned (Some c) ->
  s < c /\
  exists i, index (loc_from s p) !! i = Some c /\
            (1 <= i)%nat /\ (i + 20 < length (loc_from s p))%nat.
Proof.
  intros Hs H.
  assert (loc_from s p <> []) as Hne.
  { intros E. rewrite (identify_crest_empty p s E) in H. discriminate. }
  rewrite (identify_crest_result p s Hs Hne) in H.
  destruct (first_qualifying _ _) as [i|] eqn:E; simpl in H; [|discriminate].
  injection H as H. apply first_qualifying_Some in E as (Hi & Hq & _).
  apply crest_qualifies_room in Hq as [H1 H20]. rewrite yvals_length in H20.
  split; [|eauto].
  destruct (lookup_lt_is_Some_2 (loc_from s p) 0) as [a Ha]; [lia|].
  assert (In a (loc_from s p)) as Hin
    by (apply list_elem_of_In, list_elem_of_lookup; eauto).
  apply loc_from_In in Hin as [_ Hsa].
  assert (x a < c) as Hac; [|eapply Qle_lt_trans; eauto].
  apply (increasing_lookup (index (loc_from s p)) 0 i); trivial; try lia.
  - apply increasing_filter. trivial.
  - unfold index. rewrite lookup_map, Ha. reflexivity.
Qed.

Lemma identify_crest_needs_room_witness :
  strictly_increasing (index dune_profile) = true /\
  identify_crest dune_profile 0 = Returned (Some 7) /\
  0 < 7 /\
  exists i, index (loc_from 0 dune_profile) !! i = Some 7 /\
            (1 <= i)%nat /\ (i + 20 < length (loc_from 0 dune_profile))%nat.
Proof.
  split; [reflexivity|]. split; [reflexivity|].
  apply (identify_crest_needs_room dune_profile 0 7); reflexivity.
Defined.

(** X6.  With an increasing index, [identify_crest] raises exactly when no
    sample lies at or beyond [shore_x], and the exception is the
    [ValueError] of [idxmax] on an empty Series. *)
Theorem identify_crest_raises (p : Profile) (s : Q) (e : exn) :
  strictly_increasing (index p) = true ->
  (identify_crest p s = Raised e <->
     (forall a, In a p -> x a < s) /\ e = ValueError).
Proof.
  intros Hs. rewrite <- loc_from_nil. split.
  - intros H. destruct (loc_from s p) as [|a l] eqn:E.
    + rewrite (identify_crest_empty p s E) in H. injection H as <-. auto.
    + rewrite (identify_crest_result p s Hs) in H by (rewrite E; discriminate).
      discriminate.
  - intros [E ->]. apply identify_crest_empty. trivial.
Qed.

Lemma identify_crest_raises_witness :
  strictly_increasing (index dune_profile) = true /\
  (identify_crest dune_profile 30 = Raised ValueError <->
     (forall a, In a dune_profile -> x a < 30) /\ ValueError = ValueError).
Proof.
  split; [reflexivity|].
  apply (identify_crest_raises dune_profile 30 ValueError). reflexivity.
Defined.

Lemma identify_toe_returned polyfit (p : Profile) (s c : Q) :
  loc_range s c p <> [] -> exists r, identify_toe polyfit p s c = Returned r.
Proof.
  intros Hne. unfold identify_toe.
  destruct (loc_range s c p) as [|s0 sub] eqn:Esub; [congruence|].
  rewrite <- Esub. clear Hne.
  destruct (argmin_spec (differences polyfit (loc_range s c p)))
    as (k & r & Hk & Hr & _).
  { intros E. apply (f_equal length) in E. rewrite differences_length, Esub in E.
    discriminate. }
  apply lookup_lt_Some in Hr. rewrite differences_length in Hr.
  destruct (lookup_lt_is_Some_2 (index (loc_range s c p)) k) as [l Hl];
    [rewrite index_length; trivial|].
  unfold idxmin. rewrite Hk. simpl. rewrite Hl. simpl.
  destruct (_ || _); eauto.
Qed.

(** X7.  [identify_toe] raises the [TypeError] of [np.polyfit] when no
    sample lies in the closed range [[shore_x, crest_x]], in particular
    whenever the crest is before the shore; with an increasing index it
    returns, without raising, when the range holds at least two samples.
    (A range of one sample is left out: there [np.polyfit] can fail.) *)
Theorem identify_toe_empty_range polyfit (p : Profile) (s c : Q) :
  (loc_range s c p = [] -> identify_toe polyfit p s c = Raised TypeError) /\
  (c < s -> identify_toe polyfit p s c = Raised TypeError) /\
  (strictly_increasing (index p) = true ->
   (2 <= length (loc_range s c p))%nat ->
   exists r, identify_toe polyfit p s c = Returned r).
Proof.
  assert (loc_range s c p = [] -> identify_toe polyfit p s c = Raised TypeError) as Hnil.
  { intros E. unfold identify_toe. rewrite E. reflexivity. }
  split; [trivial|]. split.
  - intros Hlt. apply Hnil, loc_range_reversed. trivial.
  - intros _ Hlen. apply identify_toe_returned.
    intros E. rewrite E in Hlen. simpl in Hlen. lia.
Qed.

Lemma identify_toe_empty_range_witness :
  identify_toe lstsq_cubic dune_profile 40 50 = Raised TypeError /\
  identify_toe lstsq_cubic dune_profile 7 0 = Raised TypeError /\
  exists r, identify_toe lstsq_cubic dune_profile 0 7 = Returned r.
Proof.
  split; [|split].
  - apply (proj1 (identify_toe_empty_range lstsq_cubic dune_profile 40 50)).
    vm_compute; reflexivity.
  - apply (proj1 (proj2 (identify_toe_empty_range lstsq_cubic dune_profile 7 0))).
    reflexivity.
  - apply (proj2 (proj2 (identify_toe_empty_range lstsq_cubic dune_profile 0 7)));
      [vm_compute; reflexivity | vm_compute; lia].
Defined.





(** ** Volumes *)

Lemma measure_volume_trapezoid_sum (p : Profile) (a b spacing base : Q) :
  measure_volume p a b spacing base
  == trapezoid_sum (fun s => y s - base) (loc_range a b p) * spacing.
Proof.
  unfold measure_volume. simpl. rewrite trapz_trapezoid_sum. reflexivity.
Qed.

Lemma trapezoid_sum_cons2 (f : Sample -> Q) (a b : Sample) (l : Profile) :
  trapezoid_sum f (a :: b :: l)
  = (x b - x a) * (f a + f b) / 2 + trapezoid_sum f (b :: l).
Proof. reflexivity. Qed.

Lemma trapezoid_sum_base (c : Q) (l : Profile) (first final : Sample) :
  head l = Some first -> last l = Some final ->
  trapezoid_sum (fun s => y s - c) l
  == trapezoid_sum (fun s => y s - 0) l - c * (x final - x first).
Proof.
  revert first. induction l as [|a [|b l] IH]; intros first Hf Hl.
  - discriminate.
  - simpl in Hf, Hl. injection Hf as <-. injection Hl as <-. simpl. ring.
  - simpl in Hf. injection Hf as <-.
    rewrite !trapezoid_sum_cons2, (IH b eq_refl Hl). field.
Qed.

(** X8.  Changing the base elevation changes the volume by the base elevation
    times the distance between the first and the last sample of the
    sub-range, times the spacing. *)
Theorem measure_volume_base_shift (p : Profile) (a b spacing base : Q)
    (first final : Sample) :
  head (loc_range a b p) = Some first ->
  last (loc_range a b p) = Some final ->
  measure_volume p a b spacing base
  == measure_volume p a b spacing 0 - base * (x final - x first) * spacing.
Proof.
  intros Hf Hl. rewrite !measure_volume_trapezoid_sum.
  rewrite (trapezoid_sum_base base _ first final Hf Hl). ring.
Qed.

Lemma measure_volume_base_shift_witness :
  measure_volume dune_profile 2 7 1 (3 # 2)
  == measure_volume dune_profile 2 7 1 0 - (3 # 2) * (7 - 2) * 1.
Proof.
  apply (measure_volume_base_shift dune_profile 2 7 1 (3 # 2)
           (mkSample 2 (3 # 2)) (mkSample 7 5)); reflexivity.
Defined.

Lemma trapezoid_sum_nonneg (f : Sample -> Q) (l : Profile) :
  strictly_increasing (index l) = true ->
  (forall s, In s l -> 0 <= f s) -> 0 <= trapezoid_sum f l.
Proof.
  induction l as [|a [|b l] IH]; intros Hs Hf.
  - simpl. lra.
  - simpl. lra.
  - rewrite trapezoid_sum_cons2.
    apply increasing_cons in Hs as [Hab Hs]. inversion Hab as [|? ? Hlt _]; subst.
    assert (0 <= f a) as Ha by (apply Hf; left; trivial).
    assert (0 <= f b) as Hb by (apply Hf; right; left; trivial).
    assert (0 <= trapezoid_sum f (b :: l)) as Hrec
      by (apply IH; [trivial | intros s Hin; apply Hf; right; trivial]).
    assert (0 <= (x b - x a) * (f a + f b)) as Hprod
      by (apply Qmult_le_0_compat; lra).
    assert ((x b - x a) * (f a + f b) / 2 == (x b - x a) * (f a + f b) * (1 # 2)) as ->
      by field.
    assert (0 <= (x b - x a) * (f a + f b) * (1 # 2)) by (apply Qmult_le_0_compat; lra).
    lra.
Qed.

(** X10.  On a profile with an increasing index, a volume is not negative when
    the spacing is not negative and no elevation of the sub-range is below
    the base elevation. *)
Theorem measure_volume_nonneg (p : Profile) (a b spacing base : Q) :
  strictly_increasing (index p) = true ->
  0 <= spacing ->
  (forall s, In s p -> a <= x s -> x s <= b -> base <= y s) ->
  0 <= measure_volume p a b spacing base.
Proof.
  intros Hs Hsp Hy. rewrite measure_volume_trapezoid_sum.
  apply Qmult_le_0_compat; trivial.
  apply trapezoid_sum_nonneg.
  - apply increasing_filter. trivial.
  - intros s Hin. apply loc_range_In in Hin as (Hin & H1 & H2).
    specialize (Hy s Hin H1 H2). lra.
Qed.

Lemma measure_volume_nonneg_witness :
  0 <= measure_volume dune_profile 0 7 1 1.
Proof.
  apply (measure_volume_nonneg dune_profile 0 7 1 1); [reflexivity | discriminate |].
  intros s Hin H1 H2. simpl in Hin.
  repeat (destruct Hin as [<-|Hin]; [simpl in *; lra|]). destruct Hin.
Defined.

(** X11.  With an increasing index, the volume between a distance and itself is
    0: the sub-range has at most one sample. *)
Theorem measure_volume_degenerate (p : Profile) (a spacing base : Q) :
  strictly_increasing (index p) = true ->
  measure_volume p a a spacing base == 0.
Proof.
  intros Hs. rewrite measure_volume_trapezoid_sum.
  assert (trapezoid_sum (fun s => y s - base) (loc_range a a p) == 0) as ->; [|ring].
  pose proof (increasing_filter
                (fun s => Qle_bool a (x s) && Qle_bool (x s) a) p Hs) as Hinc.
  fold (loc_range a a p) in Hinc.
  assert (forall s, In s (loc_range a a p) -> x s == a) as Heq.
  { intros s Hin. apply loc_range_In in Hin as (_ & H1 & H2). lra. }
  destruct (loc_range a a p) as [|s1 [|s2 l]]; try reflexivity.
  exfalso. simpl in Hinc. apply andb_true_iff in Hinc as [Hlt _]. qbool.
  pose proof (Heq s1 (or_introl eq_refl)).
  pose proof (Heq s2 (or_intror (or_introl eq_refl))). lra.
Qed.

Lemma measure_volume_degenerate_witness :
  measure_volume dune_profile 7 7 1 0 == 0.
Proof. apply (measure_volume_degenerate dune_profile 7 1 0). reflexivity. Defined.

Lemma filter_ext_In {A} (f g : A -> bool) (l : list A) :
  (forall a, In a l -> f a = g a) -> List.filter f l = List.filter g l.
Proof.
  induction l as [|a l IH]; simpl; trivial. intros H.
  rewrite (H a) by (left; trivial). rewrite IH; trivial.
  intros b Hb. apply H. right. trivial.
Qed.

Lemma trapezoid_sum_split (f : Sample -> Q) (p : Profile) (a m b : Q) :
  strictly_increasing (index p) = true ->
  (exists j, In j p /\ x j == m) -> a <= m -> m <= b ->
  trapezoid_sum f (loc_range a b p)
  == trapezoid_sum f (loc_range a m p) + trapezoid_sum f (loc_range m b p)
  /\ head (loc_range a b p) = head (loc_range a m p).
Proof.
  intros Hs Hj Ham Hmb. induction p as [|s0 p IH]; [destruct Hj as (j & [] & _)|].
  apply increasing_cons in Hs as [Hlt Hs]. rewrite Forall_forall in Hlt.
  assert (forall s, In s p -> x s0 < x s) as Hafter.
  { intros s Hin. apply Hlt, list_elem_of_In, In_index. eauto. }
  destruct Hj as (j & Hjin & Hjm).
  unfold loc_range in *. simpl List.filter.
  destruct (Qlt_le_dec m (x s0)) as [Hgt|Hle].
  { exfalso. destruct Hjin as [<-|Hjin]; [lra|]. specialize (Hafter j Hjin). lra. }
  destruct (Qlt_le_dec (x s0) m) as [Hltm|Hgem].
  - (* the sample is before [m] *)
    assert (In j p) as Hjp by (destruct Hjin as [<-|]; [lra | trivial]).
    destruct (IH Hs (ex_intro _ j (conj Hjp Hjm))) as [IH1 IH2].
    rewrite (proj2 (Qle_bool_gt m (x s0))) by trivial.
    rewrite (proj2 (Qle_bool_iff (x s0) b)) by lra.
    rewrite (proj2 (Qle_bool_iff (x s0) m)) by lra.
    rewrite !andb_true_r. simpl andb.
    destruct (Qle_bool a (x s0)); [|auto].
    split; [|reflexivity].
    assert (In j (List.filter (fun s => Qle_bool a (x s) && Qle_bool (x s) m) p)) as Hin.
    { apply filter_In. split; trivial. apply andb_true_iff. split; qbool; lra. }
    destruct (List.filter (fun s => Qle_bool a (x s) && Qle_bool (x s) m) p)
      as [|h r1] eqn:E1; [destruct Hin|].
    destruct (List.filter (fun s => Qle_bool a (x s) && Qle_bool (x s) b) p)
      as [|h' r2] eqn:E2; [discriminate|].
    simpl in IH2. injection IH2 as ->.
    rewrite !trapezoid_sum_cons2, IH1. ring.
  - (* the sample is at [m] *)
    assert (x s0 == m) as Heq by lra.
    rewrite (proj2 (Qle_bool_iff a (x s0))) by lra.
    rewrite (proj2 (Qle_bool_iff (x s0) b)) by lra.
    rewrite (proj2 (Qle_bool_iff (x s0) m)) by lra.
    rewrite (proj2 (Qle_bool_iff m (x s0))) by lra.
    simpl andb.
    assert (List.filter (fun s => Qle_bool a (x s) && Qle_bool (x s) m) p = []) as ->.
    { apply filter_nil. intros s Hin. specialize (Hafter s Hin).
      apply andb_false_iff. right. qbool. lra. }
    assert (List.filter (fun s => Qle_bool a (x s) && Qle_bool (x s) b) p
            = List.filter (fun s => Qle_bool m (x s) && Qle_bool (x s) b) p) as ->.
    { apply filter_ext_In. intros s Hin. specialize (Hafter s Hin).
      rewrite (proj2 (Qle_bool_iff a (x s))) by lra.
      rewrite (proj2 (Qle_bool_iff m (x s))) by lra. reflexivity. }
    split; [|reflexivity]. simpl trapezoid_sum at 2. ring.
Qed.

(** X9.  With an increasing index, volumes add up at a sampled distance: for
    [a <= m <= b] with a sample at [m], the volume over [[a, b]] is the
    volume over [[a, m]] plus the volume over [[m, b]], for the same base
    elevation and spacing. *)
Theorem measure_volume_additive (p : Profile) (a m b spacing base : Q) :
  strictly_increasing (index p) = true ->
  In m (index p) -> a <= m -> m <= b ->
  measure_volume p a b spacing base
  == measure_volume p a m spacing base + measure_volume p m b spacing base.
Proof.
  intros Hs Hin Ham Hmb. rewrite !measure_volume_trapezoid_sum.
  apply In_index in Hin as (j & Hj & Hx).
  destruct (trapezoid_sum_split (fun s => y s - base) p a m b Hs) as [-> _]; trivial.
  - exists j. split; trivial. rewrite Hx. reflexivity.
  - ring.
Qed.

Lemma measure_volume_additive_witness :
  measure_volume dune_profile 0 7 1 1
  == measure_volume dune_profile 0 2 1 1 + measure_volume dune_profile 2 7 1 1.
Proof.
  apply (measure_volume_additive dune_profile 0 2 7 1 1);
    [reflexivity | simpl; tauto | discriminate | discriminate].
Defined.

(** ** The per-profile volumes *)

Lemma zip_with4_length {A B C D E} (f : A -> B -> C -> D -> E)
    (la : list A) (lb : list B) (lc : list C) (ld : list D) :
  length (zip_with4 f la lb lc ld)
  = (length la `min` (length lb `min` (length lc `min` length ld)))%nat.
Proof.
  revert lb lc ld. induction la as [|a la IH]; intros [|b lb] [|c lc] [|d ld];
    simpl; trivial; try lia.
  rewrite IH. reflexivity.
Qed.

(** X12.  [measure_feature_volumes] raises exactly on a dataset of fewer than two
    rows (the [IndexError] of [.iat]); otherwise it returns as many volumes
    as the shortest of its sequences allows: profiles beyond the shortest
    of [start_values], [end_values] and [base_elevations] get no volume,
    and values beyond the number of profiles are ignored. *)
Theorem measure_feature_volumes_length (xy_data : list Row)
    (start_values end_values base_elevations : list Q) :
  (forall e,
     measure_feature_volumes xy_data start_values end_values base_elevations
       = Raised e <-> (length xy_data < 2)%nat /\ e = IndexError) /\
  (forall volumes,
     measure_feature_volumes xy_data start_values end_values base_elevations
       = Returned volumes ->
     length volumes
     = (length (groupby xy_data) `min` (length start_values `min`
          (length end_values `min` length base_elevations)))%nat).
Proof.
  unfold measure_feature_volumes, profile_spacing.
  destruct xy_data as [|r0 [|r1 rest]]; simpl.
  - split; [|discriminate]. intros e. split; [intros [= <-]; split; [lia | trivial]|].
    intros [_ ->]. reflexivity.
  - split; [|discriminate]. intros e. split; [intros [= <-]; split; [lia | trivial]|].
    intros [_ ->]. reflexivity.
  - split.
    + intros e. split; [discriminate | intros [H _]; lia].
    + intros volumes [= <-]. apply zip_with4_length.
Qed.

Lemma key_ltb_spec (a b : key) :
  key_ltb a b = true <->
  (a.1.1 < b.1.1 \/ (a.1.1 = b.1.1 /\
     (a.1.2 < b.1.2 \/ (a.1.2 = b.1.2 /\ a.2 < b.2))))%Z.
Proof.
  destruct a as [[a1 a2] a3], b as [[b1 b2] b3]. simpl.
  destruct (Z.ltb_spec a1 b1), (Z.eqb_spec a1 b1), (Z.ltb_spec a2 b2),
    (Z.eqb_spec a2 b2), (Z.ltb_spec a3 b3); simpl; split; intros; try lia;
    try discriminate; reflexivity.
Qed.

Lemma key_eqb_eq (a b : key) : key_eqb a b = true <-> a = b.
Proof.
  destruct a as [[a1 a2] a3], b as [[b1 b2] b3]. simpl.
  rewrite !andb_true_iff, !Z.eqb_eq. split.
  - intros [[-> ->] ->]. reflexivity.
  - intros [= -> -> ->]. auto.
Qed.

Lemma key_lt_trans (a b c : key) : key_lt a b -> key_lt b c -> key_lt a c.
Proof. unfold key_lt. rewrite !key_ltb_spec. lia. Qed.

Lemma key_lt_total (a b : key) :
  key_eqb a b = false -> key_ltb a b = false -> key_lt b a.
Proof.
  intros He Hl. unfold key_lt. apply key_ltb_spec.
  assert (a <> b) as Hne by (intros E; apply key_eqb_eq in E; congruence).
  assert (~ key_ltb a b = true) as Hnl by congruence.
  rewrite key_ltb_spec in Hnl.
  destruct a as [[a1 a2] a3], b as [[b1 b2] b3]. simpl in *.
  assert (a1 <> b1 \/ a2 <> b2 \/ a3 <> b3) as Hd.
  { destruct (Z.eq_dec a1 b1) as [->|]; [|auto].
    destruct (Z.eq_dec a2 b2) as [->|]; [|auto].
    destruct (Z.eq_dec a3 b3) as [->|]; [|auto]. congruence. }
  lia.
Qed.

Lemma insert_key_In (k k' : key) (l : list key) :
  In k' (insert_key k l) <-> k' = k \/ In k' l.
Proof.
  induction l as [|h l IH]; simpl; [intuition congruence|].
  destruct (key_eqb k h) eqn:E.
  - apply key_eqb_eq in E as ->. simpl. intuition congruence.
  - destruct (key_ltb k h); simpl; [|rewrite IH]; intuition congruence.
Qed.

Lemma insert_key_sorted (k : key) (l : list key) :
  StronglySorted key_lt l -> StronglySorted key_lt (insert_key k l).
Proof.
  induction 1 as [|h l Hl IH Hh]; simpl.
  - repeat constructor.
  - destruct (key_eqb k h) eqn:E; [constructor; trivial|].
    destruct (key_ltb k h) eqn:L.
    + constructor; [constructor; trivial|]. constructor; trivial.
      eapply Forall_impl; [exact Hh|]. intros c Hc. eapply key_lt_trans; eauto.
    + constructor; trivial. rewrite Forall_forall in *. intros c Hc.
      apply list_elem_of_In, insert_key_In in Hc as [->|Hc].
      * apply key_lt_total; trivial.
      * apply Hh, list_elem_of_In. trivial.
Qed.

Lemma group_keys_sorted (ks : list key) :
  StronglySorted key_lt (foldr insert_key [] ks).
Proof.
  induction ks as [|k ks IH]; simpl; [constructor | apply insert_key_sorted, IH].
Qed.

Lemma group_keys_In (ks : list key) (k : key) :
  In k (foldr insert_key [] ks) <-> In k ks.
Proof.
  induction ks as [|h ks IH]; simpl; [tauto|].
  rewrite insert_key_In, IH. intuition congruence.
Qed.

Lemma key_lt_irrefl (a : key) : ~ key_lt a a.
Proof. unfold key_lt. rewrite key_ltb_spec. lia. Qed.

Lemma filter_length_cons {A} (f : A -> bool) (a : A) (l : list A) :
  length (List.filter f (a :: l))
  = ((if f a then 1 else 0) + length (List.filter f l))%nat.
Proof. simpl. destruct (f a); reflexivity. Qed.

Lemma sum_map_plus {A} (f g : A -> nat) (l : list A) :
  foldr Nat.add 0%nat (map (fun a => (f a + g a)%nat) l)
  = (foldr Nat.add 0%nat (map f l) + foldr Nat.add 0%nat (map g l))%nat.
Proof. induction l as [|a l IH]; simpl; lia. Qed.

(** A key occurs once among keys in strictly increasing order. *)
Lemma sum_indicator (ks : list key) (k0 : key) :
  StronglySorted key_lt ks -> In k0 ks ->
  foldr Nat.add 0%nat (map (fun k => if key_eqb k0 k then 1%nat else 0%nat) ks)
  = 1%nat.
Proof.
  induction 1 as [|h ks Hs IH Hh]; intros Hin; [destruct Hin|].
  change (map (fun k => if key_eqb k0 k then 1%nat else 0%nat) (h :: ks))
    with ((if key_eqb k0 h then 1%nat else 0%nat)
          :: map (fun k => if key_eqb k0 k then 1%nat else 0%nat) ks).
  change (foldr Nat.add 0%nat (?a :: ?l)) with (a + foldr Nat.add 0%nat l)%nat.
  destruct (key_eqb k0 h) eqn:E.
  - apply key_eqb_eq in E as ->.
    assert (foldr Nat.add 0%nat
              (map (fun k => if key_eqb h k then 1%nat else 0%nat) ks) = 0%nat) as ->;
      [|reflexivity].
    clear IH Hin Hs. induction ks as [|k ks IHk]; [reflexivity|].
    inversion Hh as [|? ? Hk Hks]; subst.
    change (map (fun k => if key_eqb h k then 1%nat else 0%nat) (k :: ks))
      with ((if key_eqb h k then 1%nat else 0%nat)
            :: map (fun k => if key_eqb h k then 1%nat else 0%nat) ks).
    change (foldr Nat.add 0%nat (?a :: ?l)) with (a + foldr Nat.add 0%nat l)%nat.
    rewrite (IHk Hks). destruct (key_eqb h k) eqn:E; [|reflexivity].
    apply key_eqb_eq in E as <-. destruct (key_lt_irrefl _ Hk).
  - destruct Hin as [->|Hin].
    + rewrite (proj2 (key_eqb_eq k0 k0) eq_refl) in E. discriminate.
    + rewrite (IH Hin). reflexivity.
Qed.

(** Over keys in strictly increasing order (so without repetition) that
    cover the keys of the rows, the groups count every row once. *)
Lemma group_sizes_sum (ks : list key) (d : list Row) :
  StronglySorted key_lt ks ->
  (forall r, In r d -> In (key_of r) ks) ->
  foldr Nat.add 0%nat
    (map (fun k => length (List.filter (fun r => key_eqb (key_of r) k) d)) ks)
  = length d.
Proof.
  intros Hks. induction d as [|r d IH]; intros Hcov.
  - clear Hks Hcov. induction ks as [|k ks IHk]; simpl; auto.
  - change (length (r :: d)) with (S (length d)).
    rewrite <- IH by (intros r' Hr'; apply Hcov; right; trivial).
    rewrite (map_ext _ (fun k =>
               ((if key_eqb (key_of r) k then 1 else 0)
                + length (List.filter (fun r' => key_eqb (key_of r') k) d))%nat))
      by (intros k; apply (filter_length_cons (fun r' => key_eqb (key_of r') k))).
    rewrite (sum_map_plus (fun k => if key_eqb (key_of r) k then 1%nat else 0%nat)).
    rewrite sum_indicator; [reflexivity | trivial | apply Hcov; left; trivial].
Qed.

(** X13.  The profiles that [measure_feature_volumes] iterates over: their keys
    [(state, segment, profile)] come in strictly increasing order, whatever
    the order of the rows, no profile is empty, every row of the dataset
    is in the profile of its key, and the sizes of the profiles add up to
    the number of rows. *)
Theorem groupby_partition (xy_data : list Row) :
  StronglySorted key_lt (map fst (groupby xy_data)) /\
  (forall g, In g (groupby xy_data) -> snd g <> []) /\
  (forall r, In r xy_data ->
     exists g, In g (groupby xy_data) /\ fst g = key_of r /\
               In (mkSample (row_x r) (row_y r)) (snd g)) /\
  foldr Nat.add 0%nat (map (fun g => length (snd g)) (groupby xy_data))
  = length xy_data.
Proof.
  unfold groupby. rewrite !map_map. cbn [fst snd].
  split; [rewrite map_id; apply group_keys_sorted|].
  split; [|split].
  - intros g Hg. apply in_map_iff in Hg as (k & <- & Hk). cbn [snd].
    apply group_keys_In, in_map_iff in Hk as (r & <- & Hr).
    intros E. apply map_eq_nil in E.
    assert (In r (List.filter (fun r' => key_eqb (key_of r') (key_of r)) xy_data)) as Hin
      by (apply filter_In; split; [trivial | apply key_eqb_eq; trivial]).
    rewrite E in Hin. destruct Hin.
  - intros r Hr. eexists. split.
    + apply in_map_iff. exists (key_of r). split; [reflexivity|].
      apply group_keys_In, in_map. trivial.
    + split; [reflexivity|]. cbn [snd].
      apply (in_map (fun r => mkSample (row_x r) (row_y r))).
      apply filter_In. split; [trivial | apply key_eqb_eq; trivial].
  - rewrite <- (group_sizes_sum (foldr insert_key [] (map key_of xy_data)) xy_data).
    + f_equal. apply map_ext. intros k. apply length_map.
    + apply group_keys_sorted.
    + intros r Hr. apply group_keys_In, in_map. trivial.
Qed.

(** ** The filter of the metrics, row by row *)

Lemma filter_filter_and {A} (f g : A -> bool) (l : list A) :
  List.filter g (List.filter f l) = List.filter (fun a => f a && g a) l.
Proof.
  induction l as [|a l IH]; simpl; trivial.
  destruct (f a); simpl; [destruct (g a)|]; rewrite IH; reflexivity.
Qed.

Lemma filter_idempotent {A} (f : A -> bool) (l : list A) :
  List.filter f (List.filter f l) = List.filter f l.
Proof.
  rewrite filter_filter_and. apply filter_ext_In. intros a _.
  destruct (f a); reflexivity.
Qed.

Lemma filter_length_le {A} (f : A -> bool) (l : list A) :
  (length (List.filter f l) <= length l)%nat.
Proof. induction l as [|a l IH]; simpl; [|destruct (f a); simpl]; lia. Qed.

Lemma filtered_beach_data_single_filter (t : list BeachData) :
  filtered_beach_data t
  = List.filter (fun r => in_ranges r && negb (existsb is_nan (columns r))) t.
Proof. unfold filtered_beach_data, dropna. apply filter_filter_and. Qed.

(** X14.  The filter decides on each row by itself: filtering two tables put end
    to end gives the two filtered tables put end to end; filtering a
    filtered table changes nothing; and the filter only removes rows. *)
Theorem filtered_beach_data_rowwise (t1 t2 : list BeachData) :
  filtered_beach_data (t1 ++ t2) = filtered_beach_data t1 ++ filtered_beach_data t2 /\
  filtered_beach_data (filtered_beach_data t1) = filtered_beach_data t1 /\
  (length (filtered_beach_data t1) <= length t1)%nat.
Proof.
  rewrite !filtered_beach_data_single_filter. split; [apply List.filter_app|].
  split; [apply filter_idempotent | apply filter_length_le].
Qed.

(** X15.  A retained row has a finite dune height, dune length and beach width
    (the columns with a range on both sides), and its volumes and its crest
    elevation are not plus infinity; the toe elevation, the two slopes and
    the ratio of volumes are not constrained beyond not being [NaN]. *)
Theorem filtered_beach_data_bounded_columns (t : list BeachData) (r : BeachData) :
  In r (filtered_beach_data t) ->
  is_finite (dune_height r) = true /\
  is_finite (dune_length r) = true /\
  is_finite (beach_width r) = true /\
  dune_vol r <> PosInf /\ beach_vol r <> PosInf /\ dune_crest r <> PosInf.
Proof.
  rewrite filtered_beach_data_single_filter, filter_In.
  intros [_ H]. apply andb_true_iff in H as [H _]. unfold in_ranges in H.
  repeat (apply andb_true_iff in H as [H ?]).
  destruct r as [dh bw dt dc dl bs ds bv dv bd]. simpl in *. unfold fgt in *.
  repeat split;
    try (destruct dh; simpl in *; congruence);
    try (destruct dl; simpl in *; congruence);
    try (destruct bw; simpl in *; congruence);
    try (intros ->; simpl in *; congruence).
Qed.

Lemma filtered_beach_data_bounded_columns_witness :
  is_finite (dune_height infinite_ratio_row) = true /\
  is_finite (dune_length infinite_ratio_row) = true /\
  is_finite (beach_width infinite_ratio_row) = true /\
  dune_vol infinite_ratio_row <> PosInf /\ beach_vol infinite_ratio_row <> PosInf /\
  dune_crest infinite_ratio_row <> PosInf.
Proof.
  apply (filtered_beach_data_bounded_columns [infinite_ratio_row] infinite_ratio_row).
  left. reflexivity.
Defined.

(** ** Block means *)

Lemma div_eqb_range (n k a : nat) :
  (0 < n)%nat -> (Nat.eqb (a / n) k = true <-> (k * n <= a < k * n + n)%nat).
Proof.
  intros Hn. rewrite Nat.eqb_eq.
  pose proof (Nat.div_mod_eq a n) as Hdm.
  pose proof (Nat.mod_upper_bound a n ltac:(lia)) as Hm.
  split.
  - intros <-. nia.
  - intros [H1 H2]. symmetry. apply (Nat.div_unique a n k (a - k * n)); nia.
Qed.

Lemma block_from (A : Type) (n k : nat) (col : list A) (a : nat) :
  (0 < n)%nat ->
  map snd (List.filter (fun r => Nat.eqb (fst r / n) k)
                       (zip (seq a (length col)) col))
  = take (k * n + n - a `max` (k * n)) (drop (k * n - a) col).
Proof.
  intros Hn. revert a. induction col as [|v col IH]; intros a.
  - rewrite drop_nil, take_nil. reflexivity.
  - change (zip (seq a (length (v :: col))) (v :: col))
      with ((a, v) :: zip (seq (S a) (length col)) col).
    change (List.filter ?f ((a, v) :: ?l))
      with (if f (a, v) then (a, v) :: List.filter f l else List.filter f l).
    cbn [fst]. destruct (Nat.eqb (a / n) k) eqn:E.
    + apply div_eqb_range in E; trivial.
      change (map snd ((a, v) :: ?l)) with (v :: map snd l). rewrite IH.
      replace (k * n - a)%nat with 0%nat by lia.
      replace (k * n - S a)%nat with 0%nat by lia.
      replace (k * n + n - a `max` (k * n))%nat
        with (S (k * n + n - S a `max` (k * n))) by lia.
      reflexivity.
    + assert (~ (k * n <= a < k * n + n)%nat) as Hout.
      { intros H. apply (div_eqb_range n k a Hn) in H. congruence. }
      rewrite IH. destruct (decide (a < k * n)%nat).
      * replace (k * n - a)%nat with (S (k * n - S a)) by lia.
        replace (S a `max` (k * n))%nat with (a `max` (k * n))%nat by lia.
        reflexivity.
      * replace (k * n + n - a `max` (k * n))%nat with 0%nat by lia.
        replace (k * n + n - S a `max` (k * n))%nat with 0%nat by lia.
        reflexivity.
Qed.

Lemma block_chunk {A} (n k : nat) (col : list A) :
  (0 < n)%nat -> block n k col = take n (drop (k * n) col).
Proof.
  intros Hn. unfold block. rewrite block_from by trivial.
  f_equal; [lia | f_equal; lia].
Qed.

Lemma block_count_ceil (n len : nat) :
  (0 < n)%nat -> block_count n len = ((len + n - 1) / n)%nat.
Proof.
  intros Hn. destruct len as [|m]; unfold block_count.
  - symmetry. apply Nat.div_small. lia.
  - replace (S m + n - 1)%nat with (m + 1 * n)%nat by lia.
    rewrite Nat.div_add by lia. lia.
Qed.

(** X16.  For a positive [n], [grouped_mean] averages the rows in their order by
    consecutive blocks of [n] rows: a table of [len] rows gives
    [ceil(len / n)] rows, row [k] of the result is the mean of the rows
    [k * n], ..., [k * n + n - 1] that exist, and the last block is
    averaged over the rows it has. *)
Theorem grouped_mean_blocks (profiles : list (list (option Q))) (n len : nat) :
  (0 < n)%nat ->
  Forall (fun col => length col = len) profiles ->
  Forall (fun col => length col = ((len + n - 1) / n)%nat) (grouped_mean profiles n) /\
  forall j col, profiles !! j = Some col ->
    exists means, grouped_mean profiles n !! j = Some means /\
      forall k, (k < (len + n - 1) / n)%nat ->
        means !! k = Some (mean_skipna (take n (drop (k * n) col))) /\
        (1 <= length (take n (drop (k * n) col)) <= n)%nat.
Proof.
  intros Hn Hlen. split.
  - unfold grouped_mean. rewrite Forall_forall in *. intros means Hin.
    apply list_elem_of_In, in_map_iff in Hin as (col & <- & Hcol).
    apply list_elem_of_In, Hlen in Hcol. unfold grouped_column.
    rewrite length_map, length_seq, Hcol. apply block_count_ceil. trivial.
  - intros j col Hj. unfold grouped_mean. rewrite lookup_map, Hj. simpl.
    eexists. split; [reflexivity|]. intros k Hk.
    assert (length col = len) as Hcol.
    { rewrite Forall_forall in Hlen. apply Hlen, list_elem_of_lookup. eauto. }
    rewrite <- block_count_ceil in Hk by trivial.
    split.
    + unfold grouped_column. rewrite lookup_map, Hcol, lookup_seq_lt by trivial.
      simpl. rewrite block_chunk by trivial. reflexivity.
    + rewrite length_take, length_drop, Hcol.
      destruct len as [|m]; simpl in Hk; [lia|].
      assert (k * n <= m)%nat; [|lia].
      pose proof (Nat.div_mod_eq m n). nia.
Qed.

Lemma grouped_mean_blocks_witness :
  Forall (fun col => length col = 2%nat)
    (grouped_mean [[Some 1; Some 2; Some 3]; [None; None; Some 4]] 2).
Proof.
  apply (grouped_mean_blocks [[Some 1; Some 2; Some 3]; [None; None; Some 4]] 2 3);
    [lia | repeat constructor].
Defined.

Lemma inject_nat_S (k : nat) :
  inject_Z (Z.of_nat (S k)) == inject_Z (Z.of_nat k) + 1.
Proof. rewrite Nat2Z.inj_succ, <- Z.add_1_r, inject_Z_plus. reflexivity. Qed.

Lemma add_reduce_bounds (lo hi : Q) (l : list Q) :
  (forall v, In v l -> lo <= v /\ v <= hi) ->
  lo * inject_Z (Z.of_nat (length l)) <= add_reduce l /\
  add_reduce l <= hi * inject_Z (Z.of_nat (length l)).
Proof.
  induction l as [|v l IH]; intros H.
  - simpl. split; ring_simplify; apply Qle_refl.
  - destruct (H v (or_introl eq_refl)) as [H1 H2].
    destruct IH as [IH1 IH2]; [intros w Hw; apply H; right; trivial|].
    change (add_reduce (v :: l)) with (v + add_reduce l).
    change (length (v :: l)) with (S (length l)). rewrite inject_nat_S.
    split; ring_simplify; lra.
Qed.

Lemma mean_skipna_bounds (lo hi : Q) (l : list (option Q)) (w : Q) :
  (forall v, In (Some v) l -> lo <= v /\ v <= hi) ->
  mean_skipna l = Some w -> lo <= w /\ w <= hi.
Proof.
  intros H. unfold mean_skipna.
  destruct (omap id l) as [|v vs] eqn:E; [discriminate|]. intros [= <-].
  destruct (add_reduce_bounds lo hi (v :: vs)) as [H1 H2].
  { intros u Hu. apply H. rewrite <- E in Hu.
    apply list_elem_of_In, list_elem_of_omap in Hu as (o & Ho & Hid).
    simpl in Hid. subst o. apply list_elem_of_In. trivial. }
  assert (0 < inject_Z (Z.of_nat (length (v :: vs)))) as Hpos.
  { rewrite <- (Zlt_Qlt 0). simpl length. lia. }
  split.
  - apply Qle_shift_div_l; trivial.
  - apply Qle_shift_div_r; trivial.
Qed.

Lemma block_In {A} (n k : nat) (col : list A) (a : A) :
  In a (block n k col) -> In a col.
Proof.
  unfold block. intros H. apply in_map_iff in H as ([i b] & <- & Hin).
  apply filter_In in Hin as [Hin _]. simpl.
  apply list_elem_of_In, list_elem_of_lookup in Hin as [j Hj].
  apply lookup_zip_with_Some in Hj as (i' & b' & [= -> ->] & _ & Hb).
  apply list_elem_of_In, list_elem_of_lookup. eauto.
Qed.

(** X17.  A block mean lies between any two bounds of the values of its column:
    averaging does not leave the range of the data. *)
Theorem grouped_mean_bounds (profiles : list (list (option Q))) (n : nat)
    (lo hi : Q) (j k : nat) (col means : list (option Q)) (w : Q) :
  profiles !! j = Some col ->
  (forall v, In (Some v) col -> lo <= v /\ v <= hi) ->
  grouped_mean profiles n !! j = Some means ->
  means !! k = Some (Some w) ->
  lo <= w /\ w <= hi.
Proof.
  intros Hj Hb Hm Hk. unfold grouped_mean in Hm. rewrite lookup_map, Hj in Hm.
  injection Hm as <-. unfold grouped_column in Hk. rewrite lookup_map in Hk.
  destruct (seq 0 _ !! k) as [k'|]; [|discriminate]. injection Hk as Hk.
  apply (mean_skipna_bounds lo hi _ w) in Hk; trivial.
  intros v Hv. apply Hb. eapply block_In; eauto.
Qed.

Lemma grouped_mean_bounds_witness :
  1 <= 3 # 2 /\ 3 # 2 <= 5.
Proof.
  apply (grouped_mean_bounds [[Some 1; Some 2; Some 3; None; Some 5]] 2 1 5 0 0
           [Some 1; Some 2; Some 3; None; Some 5]
           [Some (3 # 2); Some 3; Some 5] (3 # 2)); try reflexivity.
  intros v Hv. simpl in Hv.
  repeat (destruct Hv as [Hv|Hv];
          [try discriminate; injection Hv as <-; split; discriminate|]).
  destruct Hv.
Defined.

(** X18.  A table of identical rows is averaged to rows with the same values:
    for a positive [n], every block mean of a column that repeats the value
    [v] is [v], and a column of missing values stays missing. *)
Theorem grouped_mean_identical_rows (n m : nat) (v : Q) (k : nat) :
  (0 < n)%nat -> (k < (m + n - 1) / n)%nat ->
  (exists w, grouped_column n (replicate m (Some v)) !! k = Some (Some w) /\ w == v) /\
  grouped_column n (replicate m None) !! k = Some None.
Proof.
  intros Hn Hk. rewrite <- block_count_ceil in Hk by trivial.
  assert (k * n < m)%nat as Hkm.
  { destruct m as [|m']; simpl in Hk; [lia|].
    pose proof (Nat.div_mod_eq m' n). nia. }
  unfold grouped_column. rewrite !lookup_map, !length_replicate.
  rewrite lookup_seq_lt by trivial. simpl. rewrite !block_chunk by trivial.
  rewrite !drop_replicate, !take_replicate.
  set (c := (n `min` (m - k * n))%nat). assert (1 <= c)%nat as Hc by (unfold c; lia).
  split.
  - destruct (mean_skipna (replicate c (Some v))) as [w|] eqn:E.
    + exists w. split; [reflexivity|].
      apply (mean_skipna_bounds v v) in E; [lra|].
      intros u Hu. apply list_elem_of_In, elem_of_replicate in Hu as [[= ->] _].
      split; apply Qle_refl.
    + exfalso. unfold mean_skipna in E.
      destruct c as [|c']; [lia|]. simpl in E. discriminate.
  - f_equal. unfold mean_skipna.
    assert (omap id (replicate c (@None Q)) = []) as ->; [|reflexivity].
    clear. induction c as [|c IH]; simpl; trivial.
Qed.

Lemma grouped_mean_identical_rows_witness :
  (exists w, grouped_column 10 (replicate 10 (Some (5 # 2))) !! 0%nat = Some (Some w)
             /\ w == 5 # 2) /\
  grouped_column 10 (replicate 10 None) !! 0%nat = Some None.
Proof.
  apply (grouped_mean_identical_rows 10 10 (5 # 2) 0); [lia | vm_compute; lia].
Defined.

(** ** Landmarks the searches return *)

(** X19.  On a profile with an increasing index, the distance that
    [identify_shore], [identify_crest] or [identify_toe] returns is a
    sampled distance of the profile, between the first and the last one;
    the crest is not before the shore it was searched from, and the toe is
    strictly between the shore and the crest. *)
Theorem resolved_landmarks_in_range polyfit (p : Profile) (s c t : Q) :
  strictly_increasing (index p) = true ->
  identify_shore p = Returned (Some s) ->
  identify_crest p s = Returned (Some c) ->
  identify_toe polyfit p s c = Returned (Some t) ->
  (In s (index p) /\ In t (index p) /\ In c (index p)) /\
  (in_x_range p s /\ in_x_range p t /\ in_x_range p c) /\
  s < t /\ t < c.
Proof.
  intros Hs H1 H2 H3.
  destruct (landmarks_in_range polyfit p Hs) as (L1 & L2 & L3).
  destruct (L1 s H1) as [A1 A2]. destruct (L2 s c H2) as (B1 & B2 & _).
  destruct (L3 s c t H3) as (T1 & T2 & T3 & T4). auto 10.
Qed.

Lemma resolved_landmarks_in_range_witness :
  (In 0 (index dune_profile) /\ In 2 (index dune_profile) /\ In 7 (index dune_profile)) /\
  (in_x_range dune_profile 0 /\ in_x_range dune_profile 2 /\ in_x_range dune_profile 7) /\
  0 < 2 /\ 2 < 7.
Proof.
  apply (resolved_landmarks_in_range lstsq_cubic dune_profile 0 7 2);
    vm_compute; reflexivity.
Defined.
